(** * bondlib: forward curves over piecewise-flat pillar data

    A shallow embedding of the curve interface ([tmx_curve.h]), the
    piecewise-flat curve ([tmx_curve_pwflat.h]) and the numeric kernel
    ([bondlib/tmx_pwflat.h]), followed by the properties of the
    specification that concern them.

    Numbers.  The C++ code is a family of templates over a time type [T] and
    a rate type [F], both [double] by default.  A template argument is
    modelled as [num R]: either the not-a-number sentinel or a value of a
    scalar type [R].  Comparisons with not-a-number are false and arithmetic
    on it yields not-a-number, as in IEEE 754.  [R] is an interface
    ([Scalar]) with three instances: the rationals [Qc] and the reals, whose
    arithmetic is exact (the reals supply [exp]), and the binary64 floats,
    which are the program's [double] with its rounding, its infinities and
    its signed zeros.  Every definition is written once, over the interface,
    and, [exp] apart, computes on the rationals and on the floats.

    A property that assumes no law of the scalars holds of all three
    instances, so of the program's [double]s.  A property that assumes
    [ScalarLaws] (or one of the other law classes) is a property of exact
    arithmetic: rounding and overflow are outside it. *)

From Stdlib Require Import String List Bool Arith Lia.
From Stdlib Require Import QArith Qcanon.
From Stdlib Require Import Reals Lra.
From Stdlib Require Import Ring.
From Stdlib Require Import PrimFloat.
Import ListNotations.

Set Implicit Arguments.
Local Open Scope nat_scope.
Local Open Scope list_scope.

(** ** Scalars: the operations the templates require of [T] and [F] *)

Class Scalar (R : Type) : Type := {
  zero : R;
  one : R;
  add : R -> R -> R;
  sub : R -> R -> R;
  mul : R -> R -> R;
  opp : R -> R;
  ltb : R -> R -> bool;
  eqb : R -> R -> bool
}.

(** Scalars that have an exponential ([std::exp]). *)
Class Exponential (R : Type) : Type := {
  expo : R -> R
}.

(** What the proofs use of a scalar type: a commutative ring, a decidable
    equality and a strict total order that subtraction respects. *)
Class ScalarLaws (R : Type) {Sc : Scalar R} : Prop := {
  scalar_ring : ring_theory zero one add mul sub opp (@eq R);
  eqb_eq : forall a b : R, eqb a b = true <-> a = b;
  ltb_irrefl : forall a : R, ltb a a = false;
  ltb_trans : forall a b c : R, ltb a b = true -> ltb b c = true -> ltb a c = true;
  ltb_total : forall a b : R, ltb a b = false -> ltb b a = false -> a = b;
  ltb_sub_compat : forall a b c : R, ltb a b = true -> ltb (sub a c) (sub b c) = true
}.

Arguments ScalarLaws R {Sc}.

(** What the proofs use of [std::exp]: it is 1 at 0 and never negative. *)
Class ExponentialLaws (R : Type) {Sc : Scalar R} {E : Exponential R} : Prop := {
  expo_zero : expo zero = one;
  expo_nonneg : forall x : R, ltb (expo x) zero = false
}.

Arguments ExponentialLaws R {Sc E}.

(** Scalars that have a division ([operator/]).  It is a total
    operation, as on [double]: what a division by 0 gives is the scalar
    type's own affair (an infinity or not-a-number on binary64, 0 by the
    library's convention on the rationals and the reals), and the one law
    assumed of it below is about divisors other than 0. *)
Class Division (R : Type) : Type := {
  sdiv : R -> R -> R
}.

(** What the proofs use of the division: it undoes a multiplication by a
    divisor other than 0. *)
Class DivisionLaws (R : Type) {Sc : Scalar R} {D : Division R} : Prop := {
  sdiv_mul : forall a b : R, eqb b zero = false -> mul (sdiv a b) b = a
}.

Arguments DivisionLaws R {Sc D}.

(** [std::exp] turns sums into products. *)
Class ExponentialSum (R : Type) {Sc : Scalar R} {E : Exponential R} : Prop := {
  expo_add : forall a b : R, expo (add a b) = mul (expo a) (expo b)
}.

Arguments ExponentialSum R {Sc E}.

(** The order and the ring: the product of values that are not below 0
    is not below 0, and neither is the difference of a value and one that
    is not above it. *)
Class OrderLaws (R : Type) {Sc : Scalar R} : Prop := {
  mul_nonneg : forall a b : R, ltb a zero = false -> ltb b zero = false ->
                               ltb (mul a b) zero = false;
  sub_nonneg : forall a b : R, ltb a b = false -> ltb (sub a b) zero = false
}.

Arguments OrderLaws R {Sc}.

(** ** [double]: a finite scalar or not-a-number *)

Inductive num (R : Type) : Type :=
| NaN : num R
| Fin : R -> num R.

Arguments NaN {R}.
Arguments Fin {R} _.

Section Num.
Context {R : Type} {Sc : Scalar R}.

Definition lift1 (g : R -> R) (a : num R) : num R :=
  match a with
  | Fin x => Fin (g x)
  | NaN => NaN
  end.

Definition lift2 (g : R -> R -> R) (a b : num R) : num R :=
  match a, b with
  | Fin x, Fin y => Fin (g x y)
  | _, _ => NaN
  end.

Definition test2 (p : R -> R -> bool) (a b : num R) : bool :=
  match a, b with
  | Fin x, Fin y => p x y
  | _, _ => false
  end.

(** [a + b], [a - b], [a * b], [-a] *)
Definition nadd : num R -> num R -> num R := lift2 add.
Definition nsub : num R -> num R -> num R := lift2 sub.
Definition nmul : num R -> num R -> num R := lift2 mul.
Definition nneg : num R -> num R := lift1 opp.

(** [a < b], [a <= b], [a > b], [a >= b], [a == b] *)
Definition nlt : num R -> num R -> bool := test2 ltb.
Definition nle : num R -> num R -> bool := test2 (fun x y => negb (ltb y x)).
Definition ngt (a b : num R) : bool := nlt b a.
Definition nge (a b : num R) : bool := nle b a.
Definition neq : num R -> num R -> bool := test2 eqb.

(** The literal [0]. *)
Definition n0 : num R := Fin zero.
Definition n1 : num R := Fin one.

(** [std::exp] *)
Definition nexp {E : Exponential R} : num R -> num R := lift1 expo.

(** Structural equality test on [num], used to decide equations between
    computed results. *)
Definition num_eqb (a b : num R) : bool :=
  match a, b with
  | NaN, NaN => true
  | Fin x, Fin y => eqb x y
  | _, _ => false
  end.

Fixpoint nums_eqb (l1 l2 : list (num R)) : bool :=
  match l1, l2 with
  | [], [] => true
  | a :: l1', b :: l2' => num_eqb a b && nums_eqb l1' l2'
  | _, _ => false
  end.
End Num.

(** [a / b] *)
Definition ndiv {R : Type} {D : Division R} : num R -> num R -> num R := lift2 sdiv.

(** ** The three scalar types *)

#[export] Instance Qc_Scalar : Scalar Qc := {|
  zero := Q2Qc 0%Q;
  one := Q2Qc 1%Q;
  add := Qcplus;
  sub := Qcminus;
  mul := Qcmult;
  opp := Qcopp;
  ltb := fun a b => match Qccompare a b with Lt => true | _ => false end;
  eqb := Qc_eq_bool
|}.

#[export] Instance R_Scalar : Scalar R := {|
  zero := 0%R;
  one := 1%R;
  add := Rplus;
  sub := Rminus;
  mul := Rmult;
  opp := Ropp;
  ltb := fun a b => if Rlt_dec a b then true else false;
  eqb := fun a b => if Req_dec_T a b then true else false
|}.

#[export] Instance R_Exponential : Exponential R := {|
  expo := exp
|}.

#[export] Instance Qc_Division : Division Qc := {|
  sdiv := Qcdiv
|}.

#[export] Instance R_Division : Division R := {|
  sdiv := Rdiv
|}.

(** [double]: IEEE 754 binary64 with rounding to nearest, ties to even.
    A float carries its own not-a-number, which the operations and the
    comparisons treat as [NaN] is treated above. *)
#[export] Instance binary64_Scalar : Scalar float := {|
  zero := 0%float;
  one := 1%float;
  add := PrimFloat.add;
  sub := PrimFloat.sub;
  mul := PrimFloat.mul;
  opp := PrimFloat.opp;
  ltb := PrimFloat.ltb;
  eqb := PrimFloat.eqb
|}.

#[export] Instance binary64_Division : Division float := {|
  sdiv := PrimFloat.div
|}.

(** Rational literals: [n # d] as a [double]. *)
Definition q (n : Z) (d : positive) : num Qc := Fin (Q2Qc (n # d)%Q).
Definition qz (n : Z) : num Qc := q n 1.

(** A binary64 literal as a [double]. *)
Definition b64 (x : float) : num float := Fin x.

(** The pillars of the specification's scenarios: [t = [1, 2, 3]] and
    [f = [2, 3, 4]]. *)
Definition scenario_t : list (num Qc) := [qz 1; qz 2; qz 3].
Definition scenario_f : list (num Qc) := [qz 2; qz 3; qz 4].

(** ** Results of a C++ call

    A call returns a value, leaves by an exception, or has no defined
    behaviour (an access outside an array or a vector). *)

Inductive outcome (A : Type) : Type :=
| Returned : A -> outcome A
| Thrown : string -> outcome A
| Undefined : outcome A.

Arguments Returned {A} _.
Arguments Thrown {A} _.
Arguments Undefined {A}.

(** ** Arrays

    A pointer with an element count, [(const T* t, size_t n)], is a list
    whose first [n] elements are the array.  [t[i]] is [at_ t i]; an index
    outside the list is undefined in C++ and reads as not-a-number here. *)

Definition at_ {R : Type} (t : list (num R)) (i : nat) : num R := nth i t NaN.

(** [std::span<T>]: a pointer into an array and an extent.  The array
    it points into is a [store]; the pointer is a position of the store, so
    that two spans over one array alias as they do in the source. *)
Record span : Type := { data : nat; size : nat }.

Definition store (R : Type) : Type := list (num R).

(** [s.last(k)] *)
Definition last_ (s : span) (k : nat) : span :=
  {| data := data s + size s - k; size := k |}.

(** The elements a span designates. *)
Definition elements {R : Type} (s : span) (m : store R) : list (num R) :=
  firstn (size s) (skipn (data s) m).

(** The times of [pwflat_translate_test] as [double]s, and the [double]s
    nearest to 0.1 and 0.3. *)
Definition double_times : store float := [b64 1; b64 2; b64 4].
Definition double_span : span := {| data := 0; size := 3 |}.
Definition tenth : float := 0x1.999999999999ap-4.
Definition three_tenths : float := 0x1.3333333333333p-2.

(** ** The standard algorithms the kernel calls

    [std::adjacent_find], [std::lower_bound] and [std::upper_bound] as the
    standard library implements them, on positions of an array. *)

Section Algorithms.
Context {R : Type} {Sc : Scalar R}.

(** [std::adjacent_find(b, e, p)]: the position of the first element
    that stands in relation [p] to its successor, else the end. *)
Fixpoint adjacent_find (p : num R -> num R -> bool) (l : list (num R)) : nat :=
  match l with
  | [] => 0
  | x :: l' =>
      match l' with
      | [] => 1
      | y :: _ => if p x y then 0 else S (adjacent_find p l')
      end
  end.

(** [std::lower_bound(first, first + len, u)] by bisection:
<<
    while (len > 0) {
      half = len >> 1; middle = first + half;
      if (middle[0] < u) { first = middle + 1; len = len - half - 1; }
      else len = half;
    }
    return first;
>>
    [len] shrinks at every turn, so [len] turns are enough. *)
Fixpoint lower_bound_loop (fuel : nat) (a : list (num R)) (u : num R)
    (first len : nat) : nat :=
  match fuel with
  | O => first
  | S fuel' =>
      if len =? 0 then first
      else
        let half := Nat.div2 len in
        let middle := first + half in
        if nlt (at_ a middle) u
        then lower_bound_loop fuel' a u (middle + 1) (len - half - 1)
        else lower_bound_loop fuel' a u first half
  end.

Definition lower_bound (a : list (num R)) (first n : nat) (u : num R) : nat :=
  lower_bound_loop n a u first n.

(** [std::upper_bound(first, first + len, u)]: the same bisection with
    the test [u < middle[0]]. *)
Fixpoint upper_bound_loop (fuel : nat) (a : list (num R)) (u : num R)
    (first len : nat) : nat :=
  match fuel with
  | O => first
  | S fuel' =>
      if len =? 0 then first
      else
        let half := Nat.div2 len in
        let middle := first + half in
        if nlt u (at_ a middle)
        then upper_bound_loop fuel' a u first half
        else upper_bound_loop fuel' a u (middle + 1) (len - half - 1)
  end.

Definition upper_bound (a : list (num R)) (first n : nat) (u : num R) : nat :=
  upper_bound_loop n a u first n.

(** [std::partition_point] by the same bisection: the standard states
    both bounds as the partition point of a test on the elements, [x < u]
    for the lower bound and [!(u < x)] for the upper one. *)
Fixpoint partition_point_loop (fuel : nat) (p : num R -> bool) (a : list (num R))
    (first len : nat) : nat :=
  match fuel with
  | O => first
  | S fuel' =>
      if len =? 0 then first
      else
        let half := Nat.div2 len in
        let middle := first + half in
        if p (at_ a middle)
        then partition_point_loop fuel' p a (middle + 1) (len - half - 1)
        else partition_point_loop fuel' p a first half
  end.

(** [std::transform(t, t + n, t, g)]: [g] applied in place to the [n]
    elements that start at position [t]. *)
Definition transform (g : num R -> num R) (t n : nat) (m : store R) : store R :=
  firstn t m ++ map g (firstn n (skipn t m)) ++ skipn (t + n) m.
End Algorithms.

(** ** The numeric kernel, namespace [tmx::pwflat] *)

Module pwflat.
Section Kernel.
Context {R : Type} {Sc : Scalar R}.

(** [monotonic(n, t)]: no element is [>=] its successor. *)
Definition monotonic (n : nat) (t : list (num R)) : bool :=
  adjacent_find nge (firstn n t) =? length (firstn n t).

(** [value(u, n, t, f, _f)] *)
Definition value (u : num R) (n : nat) (t f : list (num R)) (_f : num R) : num R :=
  if nlt u n0 then NaN
  else if n =? 0 then _f
  else
    let ti := lower_bound t 0 n u in
    if ti =? n then _f else at_ f ti.

(** The overload [value(u, span t, span f, _f)] has no model.  After its
    test of the sizes it calls [value(u, t.size(), t.begin(), f.begin(), _f)],
    and [value] has no overload that takes the iterators of a span, only
    the one above on [const T*] and [const F*]: the body does not
    type-check once the template is instantiated, so no program calls it.
    The span overload of [translate] below passes [t.data()] and is
    modelled. *)

(** The loop of [integral]:
    [for (i = 0; i < n and t[i] <= u; ++i) { I += f[i] * (t[i] - t_); t_ = t[i]; }]
    from the state [(i, I, t_)], where [I_] stands for the accumulator
    [I]; it runs at most [n - i] times. *)
Fixpoint integral_loop (fuel : nat) (u : num R) (n : nat) (t f : list (num R))
    (i : nat) (I_ t_ : num R) : nat * num R * num R :=
  match fuel with
  | O => (i, I_, t_)
  | S fuel' =>
      if (i <? n) && nle (at_ t i) u
      then integral_loop fuel' u n t f (S i)
             (nadd I_ (nmul (at_ f i) (nsub (at_ t i) t_))) (at_ t i)
      else (i, I_, t_)
  end.

(** [integral(u, n, t, f, _f)] *)
Definition integral (u : num R) (n : nat) (t f : list (num R)) (_f : num R) : num R :=
  if nlt u n0 then NaN
  else if neq u n0 then n0
  else if n =? 0 then nmul u _f
  else
    let '(i, I_, t_) := integral_loop n u n t f 0 n0 n0 in
    if ngt u t_
    then nadd I_ (nmul (if i =? n then _f else at_ f i) (nsub u t_))
    else I_.

(** [discount(u, n, t, f, _f)] *)
Definition discount {E : Exponential R} (u : num R) (n : nat) (t f : list (num R))
    (_f : num R) : num R :=
  nexp (nneg (integral u n t f _f)).

(** [spot(u, n, t, f, _f)]:
    [n == 0 ? _f : u <= t[0] ? value(u, n, t, f, _f) : integral(u, n, t, f, _f) / u] *)
Definition spot {D : Division R} (u : num R) (n : nat) (t f : list (num R))
    (_f : num R) : num R :=
  if n =? 0 then _f
  else if nle u (at_ t 0) then value u n t f _f
  else ndiv (integral u n t f _f) u.

(** Modelled from the spec: the kernel function [tmx::pwflat::forward]
    that [curve::pwflat::_value] calls is declared in a header that is not
    among the sources; section 4.4 has the curve's value delegate to the
    kernel's value over the owned arrays, so it is that function. *)
Definition forward (u : num R) (n : nat) (t f : list (num R)) (_f : num R) : num R :=
  value u n t f _f.

(** [translate(u, n, t)]: every time of the array at [t] becomes
    [ti - u] in place; the span returned starts at the first time
    that [std::upper_bound] finds above 0.  The result is the store after
    the call and that span. *)
Definition translate (u : num R) (n t : nat) (m : store R) : store R * span :=
  let m' := transform (fun ti => nsub ti u) t n m in
  let k := upper_bound m' t n n0 - t in
  (m', {| data := t + k; size := n - k |}).

(** [translate(u, span t)] *)
Definition translate_span (u : num R) (t : span) (m : store R) : store R * span :=
  translate u (size t) (data t) m.
End Kernel.
End pwflat.

(** ** The scoped translation, class [tmx::translate] *)

Module translate.
Section Scoped.
Context {R : Type} {Sc : Scalar R}.

(** The members [dt], [n] and [t]. *)
Record translate : Type := { dt : num R; n : nat; t : span }.

(** The constructor: [n = pwflat::translate(dt, std::span(t)).size()]. *)
Definition ctor (dt0 : num R) (t0 : span) (m : store R) : translate * store R :=
  let '(m', s) := pwflat.translate_span dt0 t0 m in
  ({| dt := dt0; n := size s; t := t0 |}, m').

(** The destructor: [pwflat::translate(-dt, std::span(t))]. *)
Definition dtor (g : translate) (m : store R) : store R :=
  fst (pwflat.translate_span (nneg (dt g)) (t g) m).

(** [size()] and the conversion to a span, [t.last(n)]. *)
Definition size_ (g : translate) : nat := n g.
Definition view (g : translate) : span := last_ (t g) (n g).

(** A block that holds a [translate] object in scope: the constructor
    runs, the body reads the translated times through the span, and the
    destructor runs when the block is left, whether the body returns or
    throws. *)
Definition scoped {A : Type} (dt0 : num R) (t0 : span)
    (body : span -> store R -> outcome A) (m : store R) : outcome A * store R :=
  let '(g, m1) := ctor dt0 t0 m in
  let r := body (view g) m1 in
  (r, dtor g m1).
End Scoped.
End translate.

(** ** The curve interface and its variants, namespace [tmx::curve]

    [base::spot] is not modelled: no property below concerns it. *)

Module curve.
Section Curves.
Context {R : Type} {Sc : Scalar R}.

(** [base]: an object of the interface is the table of its virtual
    members [_value], [_integral] and the getter [_extrapolate].  The
    setter [_extrapolate(F)] and [_back] are given per variant below;
    [_back] of the constant curve and of the sum need an infinite time,
    which [num] does not have, and are left out. *)
Record base : Type := {
  _value : num R -> num R;
  _integral : num R -> num R -> num R;
  _extrapolate : num R
}.

(** The public members of [base]. *)
Definition value (c : base) (u : num R) : num R := _value c u.
Definition integral (c : base) (u t : num R) : num R := _integral c u t.
Definition extrapolate (c : base) : num R := _extrapolate c.

(** [forward(u, t)] is [return forward(u + t);]: inside [base] the name
    is the member itself, called with [t] at its default 0.  [fuel] bounds
    the depth of calls; [None] is a call that has not returned within it. *)
Fixpoint forward (fuel : nat) (c : base) (u t : num R) : option (num R) :=
  match fuel with
  | O => None
  | S fuel' => forward fuel' c (nadd u t) n0
  end.

(** [discount(u, t)] *)
Definition discount {E : Exponential R} (c : base) (u t : num R) : num R :=
  nexp (nneg (integral c u t)).

(** *** [constant] *)
Record constant : Type := { c_f : num R }.

Definition constant_value (c : constant) (u : num R) : num R := c_f c.
Definition constant_integral (c : constant) (u t : num R) : num R :=
  nmul (c_f c) (nsub u t).
Definition constant_set_extrapolate (c : constant) (_f : num R) : constant :=
  {| c_f := _f |}.
Definition constant_extrapolate (c : constant) : num R := c_f c.

Definition constant_base (c : constant) : base :=
  {| _value := constant_value c;
     _integral := constant_integral c;
     _extrapolate := constant_extrapolate c |}.

(** *** [pwflat]: the vectors [t] and [f] and the extrapolation [_f] *)
Record pwflat : Type := { t : list (num R); f : list (num R); _f : num R }.

(** [pwflat(F _f)]: no pillars. *)
Definition pwflat_flat (_f0 : num R) : pwflat :=
  {| t := []; f := []; _f := _f0 |}.

(** [pwflat(n, t_, f_, _f)]: the vectors are built from the ranges
    [[t_, t_ + n)] and [[f_, f_ + n)]; a range that runs past its array
    is undefined. *)
Definition pwflat_ctor (n : nat) (t_ f_ : list (num R)) (_f0 : num R) : outcome pwflat :=
  if (n <=? length t_) && (n <=? length f_)
  then Returned {| t := firstn n t_; f := firstn n f_; _f := _f0 |}
  else Undefined.

Definition pwflat_value (p : pwflat) (u : num R) : num R :=
  pwflat.forward u (length (t p)) (t p) (f p) (_f p).
Definition pwflat_integral (p : pwflat) (u t0 : num R) : num R :=
  nsub (pwflat.integral u (length (t p)) (t p) (f p) (_f p))
       (pwflat.integral t0 (length (t p)) (t p) (f p) (_f p)).
Definition pwflat_set_extrapolate (p : pwflat) (e : num R) : pwflat :=
  {| t := t p; f := f p; _f := e |}.
Definition pwflat_extrapolate (p : pwflat) : num R := _f p.

(** [_back()] is [{ t.back(), f.back() }]; [std::vector::back] on an
    empty vector is undefined. *)
Definition pwflat_back (p : pwflat) : outcome (num R * num R) :=
  match t p, f p with
  | _ :: _, _ :: _ => Returned (last (t p) NaN, last (f p) NaN)
  | _, _ => Undefined
  end.

Definition pwflat_base (p : pwflat) : base :=
  {| _value := pwflat_value p;
     _integral := pwflat_integral p;
     _extrapolate := pwflat_extrapolate p |}.

(** *** [plus]: references to two curves *)
Record plus : Type := { p_f : base; p_g : base }.

Definition plus_value (p : plus) (u : num R) : num R :=
  nadd (value (p_f p) u) (value (p_g p) u).
(** [f.integral(u) + g.integral(u)]: the lower bounds are the default 0. *)
Definition plus_integral (p : plus) (u t : num R) : num R :=
  nadd (integral (p_f p) u n0) (integral (p_g p) u n0).
Definition plus_set_extrapolate (p : plus) (_f : num R) : plus := p.
Definition plus_extrapolate (p : plus) : num R :=
  nadd (extrapolate (p_f p)) (extrapolate (p_g p)).

Definition plus_base (p : plus) : base :=
  {| _value := plus_value p;
     _integral := plus_integral p;
     _extrapolate := plus_extrapolate p |}.

(** The members [f] and [g] of [plus] are references.  A reference is
    bound to a curve that is alive, or it dangles: the object it was bound
    to has been destroyed. *)
Inductive reference : Type :=
| Bound : base -> reference
| Dangling : reference.

Record plus_object : Type := { r_f : reference; r_g : reference }.

(** [plus(const base& f, const base& g) : f(f), g(g)], which
    [operator+(f, g)] returns: both references are bound to the caller's
    curves. *)
Definition plus_ctor (f g : base) : plus_object :=
  {| r_f := Bound f; r_g := Bound g |}.

(** [plus(const base& f, F s) : f(f), g(constant(s))], which
    [operator+(f, s)] returns: [g] is bound to the temporary [constant(s)],
    which is destroyed when the constructor returns. *)
Definition plus_ctor_scalar (f : base) (s : num R) : plus_object :=
  {| r_f := Bound f; r_g := Dangling |}.

(** A member of [plus] called on an object: it reads [f] and [g], and
    a read through a dangling reference has no defined behaviour. *)
Definition plus_call {A : Type} (member : plus -> A) (o : plus_object) : outcome A :=
  match r_f o, r_g o with
  | Bound f, Bound g => Returned (member {| p_f := f; p_g := g |})
  | _, _ => Undefined
  end.

(** [value(u)] of a [plus] object. *)
Definition plus_object_value (o : plus_object) (u : num R) : outcome (num R) :=
  plus_call (fun p => value (plus_base p) u) o.
End Curves.
End curve.

(** ** What the specification says, in its own words *)

Section Specification.
Context {R : Type} {Sc : Scalar R}.

(** A value that is not the not-a-number sentinel. *)
Definition finite (a : num R) : Prop := exists x, a = Fin x.

(** Strictly increasing pillar times [t[0..n-1]]. *)
Definition strictly_increasing (n : nat) (t : list (num R)) : Prop :=
  forall i j, i < j -> j < n -> nlt (at_ t i) (at_ t j) = true.

(** [i] is the first pillar index with [t[i] >= u]. *)
Definition first_pillar_from (u : num R) (n : nat) (t : list (num R)) (i : nat) : Prop :=
  i < n /\ nge (at_ t i) u = true /\ forall j, j < i -> nge (at_ t j) u = false.

(** [u] exceeds all pillar times. *)
Definition exceeds_all (u : num R) (n : nat) (t : list (num R)) : Prop :=
  forall i, i < n -> ngt u (at_ t i) = true.

(** The number of intervals fully below [u]: pillars with [t[i] <= u]. *)
Definition intervals_below (u : num R) (n : nat) (t : list (num R)) : nat :=
  length (filter (fun ti => nle ti u) (firstn n t)).

(** [t[k-1]], the time at which interval [k] starts; 0 before the first
    pillar. *)
Definition start_of (t : list (num R)) (k : nat) : num R :=
  match k with
  | O => n0
  | S j => at_ t j
  end.

(** The sum of [f[i] * (t[i] - t[i-1])] over the first [k] intervals. *)
Fixpoint full_intervals (k : nat) (t f : list (num R)) : num R :=
  match k with
  | O => n0
  | S j => nadd (full_intervals j t f) (nmul (at_ f j) (nsub (at_ t j) (start_of t j)))
  end.

(** The piecewise-constant antiderivative of section 4.2: the intervals
    fully below [u], then, when time remains after the last of them, the
    rate of the partial final interval (the next pillar's rate, or [_f]
    past all pillars) times the remaining time. *)
Definition antiderivative (u : num R) (n : nat) (t f : list (num R)) (_f : num R) : num R :=
  let k := intervals_below u n t in
  let rate := if k =? n then _f else at_ f k in
  if ngt u (start_of t k)
  then nadd (full_intervals k t f) (nmul rate (nsub u (start_of t k)))
  else full_intervals k t f.

(** The same sum with the last term added whether or not time remains. *)
Definition antiderivative_sum (u : num R) (n : nat) (t f : list (num R)) (_f : num R) : num R :=
  let k := intervals_below u n t in
  let rate := if k =? n then _f else at_ f k in
  nadd (full_intervals k t f) (nmul rate (nsub u (start_of t k))).
End Specification.

(** * Properties *)

(** ** The scalar types satisfy the laws *)

Lemma Qc_ltb_lt (a b : Qc) : ltb a b = true <-> (a < b)%Qc.
Proof.
  cbn. rewrite Qclt_alt. destruct (a ?= b)%Qc; split; congruence.
Qed.

#[export] Instance Qc_ScalarLaws : ScalarLaws Qc.
Proof.
  split.
  - exact Qcrt.
  - intros a b. cbn. split.
    + apply Qc_eq_bool_correct.
    + intros ->. unfold Qc_eq_bool. destruct (Qc_eq_dec b b); congruence.
  - intros a. destruct (ltb a a) eqn:E; [|reflexivity].
    apply Qc_ltb_lt in E. exfalso. exact (Qclt_not_le _ _ E (Qcle_refl a)).
  - intros a b c H1 H2. apply Qc_ltb_lt in H1, H2. apply Qc_ltb_lt.
    eapply Qclt_trans; eassumption.
  - intros a b H1 H2. apply Qcle_antisym; apply Qcnot_lt_le; intro H;
      apply Qc_ltb_lt in H; congruence.
  - intros a b c H. apply Qc_ltb_lt in H. apply Qc_ltb_lt.
    apply Qclt_minus_iff in H. apply Qclt_minus_iff. cbn [sub Qc_Scalar].
    replace (b - c + - (a - c))%Qc with (b + - a)%Qc by ring. exact H.
Qed.

Lemma R_ltb_lt (a b : R) : ltb a b = true <-> (a < b)%R.
Proof.
  cbn. destruct (Rlt_dec a b); split; auto; discriminate.
Qed.

#[export] Instance R_ScalarLaws : ScalarLaws R.
Proof.
  split.
  - exact RTheory.
  - intros a b. cbn. destruct (Req_dec_T a b); split; auto; discriminate.
  - intros a. cbn. destruct (Rlt_dec a a); [lra | reflexivity].
  - intros a b c H1 H2. apply R_ltb_lt in H1, H2. apply R_ltb_lt. lra.
  - intros a b. cbn. destruct (Rlt_dec a b), (Rlt_dec b a); try discriminate.
    intros _ _. lra.
  - intros a b c H. apply R_ltb_lt in H. apply R_ltb_lt. cbn. lra.
Qed.

#[export] Instance R_ExponentialLaws : ExponentialLaws R.
Proof.
  split.
  - exact exp_0.
  - intros x. cbn. destruct (Rlt_dec (exp x) 0) as [H|H]; [|reflexivity].
    pose proof (exp_pos x). lra.
Qed.

(** ** Facts about [num] *)

Section NumFacts.
Context {R : Type} {Sc : Scalar R} {L : ScalarLaws R}.

Add Ring scalar_ring_inst : (@scalar_ring R Sc L).

Lemma sub_opp_cancel (x u : R) : sub (sub x u) (opp u) = x.
Proof. ring. Qed.

Lemma sub_diag (x : R) : sub x x = zero.
Proof. ring. Qed.

Lemma mul_zero_r (x : R) : mul x zero = zero.
Proof. ring. Qed.

Lemma opp_zero : opp zero = (zero : R).
Proof. ring. Qed.

Lemma eqb_refl (a : R) : eqb a a = true.
Proof. now apply eqb_eq. Qed.

Lemma num_eqb_eq (a b : num R) : num_eqb a b = true <-> a = b.
Proof.
  destruct a as [|x], b as [|y]; cbn; split; try congruence; try reflexivity.
  - intros H. apply eqb_eq in H. now subst.
  - intros H. injection H as ->. apply eqb_refl.
Qed.

Lemma nums_eqb_eq (l1 l2 : list (num R)) : nums_eqb l1 l2 = true -> l1 = l2.
Proof.
  revert l2. induction l1 as [|a l1 IH]; intros [|b l2]; cbn; try congruence.
  intros H. apply andb_true_iff in H as [H1 H2].
  apply num_eqb_eq in H1. subst. f_equal. now apply IH.
Qed.

Lemma nlt_irrefl (a : num R) : nlt a a = false.
Proof. destruct a; cbn; [reflexivity | apply ltb_irrefl]. Qed.

Lemma nlt_trans (a b c : num R) :
  nlt a b = true -> nlt b c = true -> nlt a c = true.
Proof.
  destruct a, b, c; cbn; try congruence. apply ltb_trans.
Qed.

Lemma nlt_finite (a b : num R) : nlt a b = true -> finite a /\ finite b.
Proof.
  destruct a as [|x], b as [|y]; cbn; try congruence.
  intros _. split; eexists; reflexivity.
Qed.

Lemma nle_finite (a b : num R) : nle a b = true -> finite a /\ finite b.
Proof.
  destruct a as [|x], b as [|y]; cbn; try congruence.
  intros _. split; eexists; reflexivity.
Qed.

(** On finite values [a <= b] is the negation of [b < a]. *)
Lemma nle_nlt (a b : num R) :
  finite a -> finite b -> nle a b = negb (nlt b a).
Proof. intros [x ->] [y ->]. reflexivity. Qed.

Lemma nle_true_nlt (a b : num R) : nle a b = true -> nlt b a = false.
Proof.
  destruct a, b; cbn; try congruence. now intros H%negb_true_iff.
Qed.

Lemma ltb_asym (x y : R) : ltb x y = true -> ltb y x = false.
Proof.
  intros H. destruct (ltb y x) eqn:E; [|reflexivity].
  pose proof (ltb_trans _ _ _ H E) as H1. rewrite ltb_irrefl in H1. discriminate.
Qed.

Lemma nlt_nle (a b : num R) : nlt a b = true -> nle a b = true.
Proof.
  destruct a, b; cbn; try congruence. intros H. now rewrite (ltb_asym _ _ H).
Qed.

(** A time above one that is not [<= c] is not [<= c] either. *)
Lemma nle_false_above (a b c : num R) :
  nlt a b = true -> nle a c = false -> nle b c = false.
Proof.
  destruct a as [|x], b as [|y], c as [|z]; cbn; try congruence.
  intros H1 H2%negb_false_iff. apply negb_false_iff.
  eapply ltb_trans; eassumption.
Qed.

(** Shifting by [-u] and then by [+u] is the identity for a finite [u]. *)
Lemma nsub_neg_cancel (x u : num R) :
  finite u -> nsub (nsub x u) (nneg u) = x.
Proof.
  intros [y ->]. destruct x as [|x]; cbn; [reflexivity|].
  now rewrite sub_opp_cancel.
Qed.
End NumFacts.

(** ** The bisections *)

Section Bisection.
Context {R : Type} {Sc : Scalar R}.

Lemma lower_bound_partition (fuel : nat) (a : list (num R)) (u : num R) :
  forall first len,
    lower_bound_loop fuel a u first len
    = partition_point_loop fuel (fun x => nlt x u) a first len.
Proof.
  induction fuel as [|k IH]; intros first len; cbn [lower_bound_loop upper_bound_loop partition_point_loop]; [reflexivity|].
  now rewrite !IH.
Qed.

Lemma upper_bound_partition (fuel : nat) (a : list (num R)) (u : num R) :
  forall first len,
    upper_bound_loop fuel a u first len
    = partition_point_loop fuel (fun x => negb (nlt u x)) a first len.
Proof.
  induction fuel as [|k IH]; intros first len; cbn [lower_bound_loop upper_bound_loop partition_point_loop]; [reflexivity|].
  rewrite !IH. now destruct (nlt u (at_ a (first + Nat.div2 len))).
Qed.

Lemma div2_lt (len : nat) : len <> 0 -> Nat.div2 len < len.
Proof. intros H. apply Nat.lt_div2. lia. Qed.

(** Fuel beyond [len] changes nothing: the bisection has ended by then. *)
Lemma partition_point_fuel (p : num R -> bool) (a : list (num R)) (fuel1 : nat) :
  forall fuel2 first len,
    len <= fuel1 -> len <= fuel2 ->
    partition_point_loop fuel1 p a first len = partition_point_loop fuel2 p a first len.
Proof.
  induction fuel1 as [|k IH]; intros fuel2 first len H1 H2.
  - assert (len = 0) as -> by lia. destruct fuel2; reflexivity.
  - destruct fuel2 as [|k2].
    + assert (len = 0) as -> by lia. reflexivity.
    + cbn [partition_point_loop].
      destruct (Nat.eqb_spec len 0) as [->|Hlen]; [reflexivity|].
      pose proof (div2_lt Hlen) as Hh.
      set (half := Nat.div2 len) in *. clearbody half.
      destruct (p (at_ a (first + half))); apply IH; lia.
Qed.

(** The bisection stays inside the range it is given. *)
Lemma partition_point_range (p : num R -> bool) (a : list (num R)) (fuel : nat) :
  forall first len,
    first <= partition_point_loop fuel p a first len <= first + len.
Proof.
  induction fuel as [|k IH]; intros first len; cbn [partition_point_loop]; [lia|].
  destruct (Nat.eqb_spec len 0) as [->|Hlen]; [lia|].
  pose proof (div2_lt Hlen) as Hh.
  set (half := Nat.div2 len) in *. clearbody half.
  destruct (p (at_ a (first + half))).
  - specialize (IH (first + half + 1) (len - half - 1)). lia.
  - specialize (IH first half). lia.
Qed.

(** On a range where the test holds on an initial part only, [len]
    turns of the bisection find where it stops holding. *)
Lemma partition_point_spec (p : num R -> bool) (a : list (num R)) (fuel : nat) :
  forall first len,
    len <= fuel ->
    (forall i j, first <= i -> i < j -> j < first + len ->
                 p (at_ a j) = true -> p (at_ a i) = true) ->
    let r := partition_point_loop fuel p a first len in
    (forall j, first <= j -> j < r -> p (at_ a j) = true) /\
    (forall j, r <= j -> j < first + len -> p (at_ a j) = false).
Proof.
  induction fuel as [|k IH]; intros first len Hfuel Hmono; cbn [partition_point_loop].
  - split; intros j H1 H2; lia.
  - destruct (Nat.eqb_spec len 0) as [->|Hlen].
    + split; intros j H1 H2; lia.
    + pose proof (div2_lt Hlen) as Hh.
      set (half := Nat.div2 len) in *. clearbody half.
      set (middle := first + half).
      destruct (p (at_ a middle)) eqn:Hm.
      * destruct (IH (middle + 1) (len - half - 1)) as [IH1 IH2].
        { lia. }
        { intros i j Hi Hij Hj. apply Hmono; unfold middle in *; lia. }
        split.
        -- intros j H1 H2.
           destruct (Nat.lt_ge_cases middle j) as [Hlt|Hge].
           ++ apply IH1; lia.
           ++ destruct (Nat.eq_dec j middle) as [->|Hne]; [assumption|].
              apply (Hmono j middle); unfold middle in *; try lia. assumption.
        -- intros j H1 H2. apply IH2; [assumption | unfold middle; lia].
      * destruct (IH first half) as [IH1 IH2].
        { lia. }
        { intros i j Hi Hij Hj. apply Hmono; lia. }
        split.
        -- intros j H1 H2. apply IH1; assumption.
        -- intros j H1 H2.
           destruct (Nat.lt_ge_cases j middle) as [Hlt|Hge].
           ++ apply IH2; [assumption | exact Hlt].
           ++ destruct (Nat.eq_dec j middle) as [->|Hne]; [assumption|].
              destruct (p (at_ a j)) eqn:Hj; [|reflexivity].
              rewrite <- Hm. symmetry.
              apply (Hmono middle j); unfold middle in *; try lia. assumption.
Qed.
End Bisection.

(** ** The kernel's [value] *)

Section Value.
Context {R : Type} {Sc : Scalar R} {L : ScalarLaws R}.

(** On strictly increasing times the search of [value] stops at the
    first time that is not below [u]. *)
Lemma lower_bound_spec (u : num R) (n : nat) (t : list (num R)) :
  strictly_increasing n t ->
  let r := lower_bound t 0 n u in
  r <= n /\
  (forall j, j < r -> nlt (at_ t j) u = true) /\
  (forall j, r <= j -> j < n -> nlt (at_ t j) u = false).
Proof.
  intros Hinc r. unfold lower_bound in r.
  assert (Hr : r = partition_point_loop n (fun x => nlt x u) t 0 n)
    by apply lower_bound_partition.
  pose proof (partition_point_range (fun x => nlt x u) t n 0 n) as Hrange.
  destruct (@partition_point_spec R (fun x => nlt x u) t n 0 n) as [H1 H2].
  - lia.
  - intros i j _ Hij Hj Hlt. cbn in Hj.
    eapply nlt_trans; [apply Hinc; eassumption | exact Hlt].
  - rewrite <- Hr in *. cbn in *. repeat split.
    + lia.
    + intros j Hj. apply H1; lia.
    + intros j Hj1 Hj2. apply H2; lia.
Qed.

Lemma value_negative (u : num R) (n : nat) (t f : list (num R)) (_f : num R) :
  nlt u n0 = true -> pwflat.value u n t f _f = NaN.
Proof. unfold pwflat.value. now intros ->. Qed.

Lemma value_no_pillars (u : num R) (t f : list (num R)) (_f : num R) :
  nlt u n0 = false -> pwflat.value u 0 t f _f = _f.
Proof. unfold pwflat.value. now intros ->. Qed.

Lemma value_at_first_pillar (u : num R) (n : nat) (t f : list (num R)) (_f : num R) (i : nat) :
  strictly_increasing n t -> nlt u n0 = false ->
  first_pillar_from u n t i -> pwflat.value u n t f _f = at_ f i.
Proof.
  intros Hinc Hu (Hi & Hge & Hfirst). unfold pwflat.value. rewrite Hu.
  destruct (Nat.eqb_spec n 0) as [->|Hn]; [lia|].
  destruct (lower_bound_spec u Hinc) as (Hr & Hbelow & Habove).
  set (r := lower_bound t 0 n u) in *.
  assert (Hri : r = i).
  { destruct (Nat.lt_trichotomy r i) as [Hlt | [Heq | Hgt]]; [exfalso | exact Heq | exfalso].
    - (* t[r] is neither below u nor at or after it: it is not a number,
         yet it is below t[i] *)
      pose proof (Habove r (Nat.le_refl r) ltac:(lia)) as Hnlt.
      pose proof (Hfirst r Hlt) as Hnge.
      destruct (nlt_finite _ _ (Hinc r i Hlt Hi)) as [Hfr _].
      destruct (nle_finite _ _ Hge) as [Hfu _].
      unfold nge in Hnge. rewrite (nle_nlt Hfu Hfr), Hnlt in Hnge. discriminate.
    - pose proof (Hbelow i Hgt) as Hlt'.
      apply nle_true_nlt in Hge. congruence. }
  rewrite Hri. destruct (Nat.eqb_spec i n) as [->|_]; [lia | reflexivity].
Qed.

Lemma value_past_pillars (u : num R) (n : nat) (t f : list (num R)) (_f : num R) :
  strictly_increasing n t -> nlt u n0 = false ->
  exceeds_all u n t -> pwflat.value u n t f _f = _f.
Proof.
  intros Hinc Hu Hall. unfold pwflat.value. rewrite Hu.
  destruct (Nat.eqb_spec n 0) as [->|Hn]; [reflexivity|].
  destruct (lower_bound_spec u Hinc) as (Hr & Hbelow & Habove).
  set (r := lower_bound t 0 n u) in *.
  destruct (Nat.eqb_spec r n) as [_|Hne]; [reflexivity|].
  pose proof (Habove r (Nat.le_refl r) ltac:(lia)) as Hnlt.
  pose proof (Hall r ltac:(lia)) as Hgt. unfold ngt in Hgt. congruence.
Qed.

(** For a finite [u] and finite times the two cases leave nothing out. *)
Lemma value_cases (u : num R) (n : nat) (t : list (num R)) :
  strictly_increasing n t -> finite u ->
  (forall i, i < n -> finite (at_ t i)) ->
  (exists i, first_pillar_from u n t i) \/ exceeds_all u n t.
Proof.
  intros Hinc Hfu Hft.
  destruct (lower_bound_spec u Hinc) as (Hr & Hbelow & Habove).
  set (r := lower_bound t 0 n u) in *.
  destruct (Nat.eq_dec r n) as [Heq|Hne].
  - right. intros i Hi. apply Hbelow. lia.
  - left. exists r. repeat split.
    + lia.
    + unfold nge. rewrite (nle_nlt Hfu (Hft r ltac:(lia))).
      rewrite (Habove r); [reflexivity | lia | lia].
    + intros j Hj. unfold nge.
      destruct (nle u (at_ t j)) eqn:E; [|reflexivity].
      apply nle_true_nlt in E. rewrite (Hbelow j Hj) in E. discriminate.
Qed.
End Value.

Lemma scenario_t_increasing : strictly_increasing 3 scenario_t.
Proof.
  intros i j Hij Hj.
  destruct j as [|[|[|j]]]; [lia | | | lia];
    destruct i as [|[|i]]; try lia; reflexivity.
Qed.

Section ValueClaim.
Context {R : Type} {Sc : Scalar R} {L : ScalarLaws R}.

(** C1.  For strictly increasing pillar times [t[0..n-1]], rates [f] and
    extrapolation [_f], the kernel's [value(u, n, t, f, _f)] is
    not-a-number if [u < 0]; otherwise it is [_f] if [n == 0], it is
    [f[i]] for the first pillar index [i] with [t[i] >= u], and it is [_f]
    when [u] exceeds all pillar times; for a finite [u] and finite times
    these cases are all there are.  The piecewise-flat curve's [value(u)]
    is the kernel's result over the vectors the curve owns. *)
Theorem value_first_pillar_or_extrapolation
    (u : num R) (n : nat) (t f : list (num R)) (_f : num R) :
  strictly_increasing n t ->
  (nlt u n0 = true -> pwflat.value u n t f _f = NaN) /\
  (nlt u n0 = false -> n = 0 -> pwflat.value u n t f _f = _f) /\
  (nlt u n0 = false ->
   forall i, first_pillar_from u n t i -> pwflat.value u n t f _f = at_ f i) /\
  (nlt u n0 = false -> exceeds_all u n t -> pwflat.value u n t f _f = _f) /\
  (finite u -> (forall i, i < n -> finite (at_ t i)) ->
   (exists i, first_pillar_from u n t i) \/ exceeds_all u n t) /\
  (forall p : curve.pwflat,
     curve.value (curve.pwflat_base p) u
     = pwflat.value u (length (curve.t p)) (curve.t p) (curve.f p) (curve._f p)).
Proof.
  intros Hinc. repeat split.
  - apply value_negative.
  - intros Hu ->. now apply value_no_pillars.
  - intros Hu i Hi. now apply value_at_first_pillar.
  - intros Hu Hall. now apply value_past_pillars.
  - intros Hfu Hft. now apply value_cases.
Qed.
End ValueClaim.

Lemma value_first_pillar_or_extrapolation_witness :
  strictly_increasing 3 scenario_t /\
  first_pillar_from (q 11 10) 3 scenario_t 1 /\
  pwflat.value (q 11 10) 3 scenario_t scenario_f NaN = qz 3.
Proof.
  split; [exact scenario_t_increasing|].
  assert (Hfirst : first_pillar_from (q 11 10) 3 scenario_t 1).
  { split; [lia|]. split; [reflexivity|].
    intros j Hj. assert (j = 0) as -> by lia. reflexivity. }
  split; [exact Hfirst|].
  exact (proj1 (proj2 (proj2
           (value_first_pillar_or_extrapolation (q 11 10) scenario_f NaN
              scenario_t_increasing)))
           eq_refl 1 Hfirst).
Defined.

(** ** The kernel's [integral] *)

Section Integral.
Context {R : Type} {Sc : Scalar R} {L : ScalarLaws R}.

(** A list whose first [k] elements pass a test that no later one
    passes has [k] elements that pass it. *)
Lemma filter_prefix_length (p : num R -> bool) (l : list (num R)) :
  forall k,
    k <= length l ->
    (forall j, j < k -> p (at_ l j) = true) ->
    (forall j, k <= j -> j < length l -> p (at_ l j) = false) ->
    length (filter p l) = k.
Proof.
  induction l as [|x l IH]; intros k Hk Htrue Hfalse; cbn in *.
  - lia.
  - destruct k as [|k].
    + rewrite (Hfalse 0) by lia.
      apply (IH 0); [lia | intros j Hj; lia |].
      intros j _ Hj. apply (Hfalse (S j)); lia.
    + rewrite (Htrue 0) by lia. cbn. f_equal.
      apply IH; [lia | |].
      * intros j Hj. apply (Htrue (S j)). lia.
      * intros j Hj1 Hj2. apply (Hfalse (S j)); lia.
Qed.

(** The loop of [integral] from the start of interval [i]: it stops at
    the first pillar [k] that is not [<= u], having summed the intervals
    before it. *)
Lemma integral_loop_spec (u : num R) (n : nat) (t f : list (num R)) (fuel : nat) :
  forall i,
    i <= n -> n - i <= fuel ->
    exists k,
      pwflat.integral_loop fuel u n t f i (full_intervals i t f) (start_of t i)
      = (k, full_intervals k t f, start_of t k) /\
      i <= k /\ k <= n /\
      (forall j, i <= j -> j < k -> nle (at_ t j) u = true) /\
      (k < n -> nle (at_ t k) u = false).
Proof.
  induction fuel as [|fuel IH]; intros i Hi Hfuel; cbn [pwflat.integral_loop].
  - exists i. split; [reflexivity|]. repeat split; intros; lia.
  - destruct (Nat.ltb_spec i n) as [Hlt|Hge]; cbn [andb].
    + destruct (nle (at_ t i) u) eqn:Hle.
      * destruct (IH (S i)) as (k & Heq & Hk1 & Hk2 & Hbelow & Hstop); try lia.
        exists k. cbn [full_intervals start_of] in Heq. rewrite Heq.
        split; [reflexivity|]. split; [lia|]. split; [lia|]. split; [|exact Hstop].
        intros j H1 H2. destruct (Nat.eq_dec j i) as [->|Hne]; [exact Hle|].
        apply Hbelow; lia.
      * exists i. split; [reflexivity|]. split; [lia|]. split; [lia|].
        split; [intros; lia | intros _; exact Hle].
    + exists i. split; [reflexivity|]. repeat split; intros; lia.
Qed.

(** On strictly increasing times the pillar at which the loop stops is
    the number of intervals fully below [u]. *)
Lemma intervals_below_stop (u : num R) (n : nat) (t : list (num R)) (k : nat) :
  strictly_increasing n t -> k <= n ->
  (forall j, j < k -> nle (at_ t j) u = true) ->
  (k < n -> nle (at_ t k) u = false) ->
  intervals_below u n t = k.
Proof.
  intros Hinc Hk Hbelow Hstop. unfold intervals_below.
  assert (Hlen : k <= length (firstn n t)).
  { rewrite length_firstn. apply Nat.min_glb; [exact Hk|].
    destruct k as [|k]; [lia|].
    destruct (nle_finite _ _ (Hbelow k ltac:(lia))) as [[x Hx] _].
    destruct (Nat.lt_ge_cases k (length t)) as [Hlt|Hge]; [lia|].
    unfold at_ in Hx. rewrite nth_overflow in Hx by exact Hge. discriminate. }
  apply filter_prefix_length; [exact Hlen | |].
  - intros j Hj. unfold at_. rewrite nth_firstn.
    destruct (Nat.ltb_spec j n); [apply Hbelow; exact Hj | lia].
  - intros j Hj1 Hj2. rewrite length_firstn in Hj2.
    unfold at_. rewrite nth_firstn.
    destruct (Nat.ltb_spec j n) as [Hjn|Hjn]; [|lia].
    destruct (Nat.eq_dec j k) as [->|Hne]; [apply Hstop; lia|].
    apply nle_false_above with (a := at_ t k).
    + apply Hinc; lia.
    + apply Hstop. lia.
Qed.

Lemma integral_negative (u : num R) (n : nat) (t f : list (num R)) (_f : num R) :
  nlt u n0 = true -> pwflat.integral u n t f _f = NaN.
Proof. unfold pwflat.integral. now intros ->. Qed.

Lemma integral_at_zero (u : num R) (n : nat) (t f : list (num R)) (_f : num R) :
  nlt u n0 = false -> neq u n0 = true -> pwflat.integral u n t f _f = n0.
Proof. unfold pwflat.integral. now intros -> ->. Qed.

Lemma integral_no_pillars (u : num R) (t f : list (num R)) (_f : num R) :
  nlt u n0 = false -> neq u n0 = false -> pwflat.integral u 0 t f _f = nmul u _f.
Proof. unfold pwflat.integral. now intros -> ->. Qed.

Lemma integral_is_antiderivative (u : num R) (n : nat) (t f : list (num R)) (_f : num R) :
  strictly_increasing n t ->
  nlt u n0 = false -> neq u n0 = false -> n <> 0 ->
  pwflat.integral u n t f _f = antiderivative u n t f _f.
Proof.
  intros Hinc Hu Hz Hn. unfold pwflat.integral. rewrite Hu, Hz.
  destruct (Nat.eqb_spec n 0) as [->|_]; [congruence|].
  destruct (@integral_loop_spec u n t f n 0) as (k & Heq & _ & Hk & Hbelow & Hstop);
    try lia.
  cbn [full_intervals start_of] in Heq. rewrite Heq.
  unfold antiderivative.
  rewrite (@intervals_below_stop u n t k Hinc Hk); [reflexivity | | exact Hstop].
  intros j Hj. apply Hbelow; lia.
Qed.
End Integral.

(** Equations between computed rationals are decided by evaluation. *)
Ltac by_evaluation := apply num_eqb_eq; vm_compute; reflexivity.

(** The values of scenarios A and B, as the [static_assert]s of
    [pwflat_integral_test] have them. *)
Lemma integral_scenarios :
  pwflat.integral (qz 0) 3 scenario_t scenario_f NaN = qz 0 /\
  pwflat.integral (q 1 2) 3 scenario_t scenario_f NaN = qz 1 /\
  pwflat.integral (qz 1) 3 scenario_t scenario_f NaN = qz 2 /\
  pwflat.integral (q 3 2) 3 scenario_t scenario_f NaN = q 7 2 /\
  pwflat.integral (qz 2) 3 scenario_t scenario_f NaN = qz 5 /\
  pwflat.integral (qz 3) 3 scenario_t scenario_f NaN = qz 9 /\
  pwflat.integral (q 7 2) 3 scenario_t scenario_f (qz 5) = q 23 2.
Proof. repeat split; by_evaluation. Qed.

(** C2.  For strictly increasing pillar times the kernel's
    [integral(u, n, t, f, _f)] is not-a-number if [u < 0]; otherwise 0 if
    [u == 0]; otherwise [u * _f] if [n == 0]; and otherwise the
    piecewise-constant antiderivative: the sum of [f[i] * (t[i] - t[i-1])]
    over the intervals fully below [u], plus the rate of the partial final
    interval times the remaining time when time remains.  With
    [t = [1, 2, 3]] and [f = [2, 3, 4]] it is 0, 1, 2, 3.5, 5 and 9 at
    [u] = 0, 0.5, 1, 1.5, 2 and 3, and 11.5 at 3.5 with extrapolation 5. *)
Theorem integral_piecewise_antiderivative :
  (forall (R : Type) (Sc : Scalar R) (L : ScalarLaws R)
          (u : num R) (n : nat) (t f : list (num R)) (_f : num R),
     strictly_increasing n t ->
     (nlt u n0 = true -> pwflat.integral u n t f _f = NaN) /\
     (nlt u n0 = false -> neq u n0 = true -> pwflat.integral u n t f _f = n0) /\
     (nlt u n0 = false -> neq u n0 = false -> n = 0 ->
      pwflat.integral u n t f _f = nmul u _f) /\
     (nlt u n0 = false -> neq u n0 = false -> n <> 0 ->
      pwflat.integral u n t f _f = antiderivative u n t f _f)) /\
  (pwflat.integral (qz 0) 3 scenario_t scenario_f NaN = qz 0 /\
   pwflat.integral (q 1 2) 3 scenario_t scenario_f NaN = qz 1 /\
   pwflat.integral (qz 1) 3 scenario_t scenario_f NaN = qz 2 /\
   pwflat.integral (q 3 2) 3 scenario_t scenario_f NaN = q 7 2 /\
   pwflat.integral (qz 2) 3 scenario_t scenario_f NaN = qz 5 /\
   pwflat.integral (qz 3) 3 scenario_t scenario_f NaN = qz 9 /\
   pwflat.integral (q 7 2) 3 scenario_t scenario_f (qz 5) = q 23 2).
Proof.
  split; [|exact integral_scenarios].
  intros R Sc L u n t f _f Hinc. repeat split.
  - apply integral_negative.
  - apply integral_at_zero.
  - intros Hu Hz ->. now apply integral_no_pillars.
  - intros Hu Hz Hn. now apply integral_is_antiderivative.
Qed.

Lemma integral_piecewise_antiderivative_witness :
  strictly_increasing 3 scenario_t /\
  pwflat.integral (q 3 2) 3 scenario_t scenario_f NaN
  = antiderivative (q 3 2) 3 scenario_t scenario_f NaN.
Proof.
  split; [exact scenario_t_increasing|].
  exact (proj2 (proj2 (proj2
           (proj1 integral_piecewise_antiderivative Qc _ _
              (q 3 2) 3 scenario_t scenario_f NaN scenario_t_increasing)))
           eq_refl eq_refl (fun H : 3 = 0 => O_S 2 (eq_sym H))).
Defined.

(** ** The curve interface *)

Section Interface.
Context {R : Type} {Sc : Scalar R}.

(** C3.  The sum of two curves [f] and [g] integrates both operands from
    0: [integral(u, t)] is [f.integral(u, 0) + g.integral(u, 0)] for every
    [u] and [t], whatever the lower bound [t] is. *)
Theorem plus_integral_from_zero (f g : curve.base) (u t : num R) :
  let s := curve.plus_base {| curve.p_f := f; curve.p_g := g |} in
  curve.integral s u t = nadd (curve.integral f u n0) (curve.integral g u n0) /\
  (forall t', curve.integral s u t' = curve.integral s u t).
Proof. split; reflexivity. Qed.

(** C4, as the source has it.  [forward(u, t)] calls [forward(u + t)],
    which is the same member again: whatever depth of calls is allowed, no
    call returns.  It does not return [value(u + t)]; it returns nothing. *)
Theorem forward_never_returns (fuel : nat) (c : curve.base) (u t : num R) :
  curve.forward fuel c u t = None.
Proof.
  revert u t. induction fuel as [|fuel IH]; intros u t; cbn; [reflexivity|].
  apply IH.
Qed.

End Interface.

(** The sum of the constant curves 1 and 3 integrated to 2 from the lower
    bound 1: the interface contract would give 4, the sum gives 8. *)
Example plus_integral_example :
  curve.integral
    (curve.plus_base {| curve.p_f := curve.constant_base {| curve.c_f := qz 1 |};
                        curve.p_g := curve.constant_base {| curve.c_f := qz 3 |} |})
    (qz 2) (qz 1) = qz 8.
Proof. by_evaluation. Qed.

(** ** Construction and [back] of the piecewise-flat curve *)

Section Construction.
Context {R : Type} {Sc : Scalar R}.

Lemma at_firstn (n : nat) (l : list (num R)) (i : nat) :
  i < n -> at_ (firstn n l) i = at_ l i.
Proof.
  intros Hi. unfold at_. rewrite nth_firstn.
  destruct (Nat.ltb_spec i n); [reflexivity | lia].
Qed.

Lemma monotonic_firstn (n : nat) (l : list (num R)) :
  pwflat.monotonic (length (firstn n l)) (firstn n l) = pwflat.monotonic n l.
Proof. unfold pwflat.monotonic. now rewrite firstn_all. Qed.

Lemma strictly_increasing_firstn (n : nat) (l : list (num R)) :
  n <= length l ->
  strictly_increasing (length (firstn n l)) (firstn n l) <-> strictly_increasing n l.
Proof.
  intros Hn. rewrite firstn_length_le by exact Hn.
  split; intros H i j Hij Hj.
  - rewrite <- (at_firstn l (Nat.lt_trans _ _ _ Hij Hj)), <- (at_firstn l Hj).
    now apply H.
  - rewrite (at_firstn l (Nat.lt_trans _ _ _ Hij Hj)), (at_firstn l Hj).
    now apply H.
Qed.

(** C5, as the source has it.  The constructor [pwflat(n, t_, f_, _f)]
    checks nothing and throws nothing: given [n] times and [n] rates it
    returns the curve that holds copies of them.  The two vectors have
    length [n]; the times held pass [monotonic], and are strictly
    increasing, exactly when the [n] times given do. *)
Theorem pwflat_ctor_copies (n : nat) (t_ f_ : list (num R)) (_f : num R) :
  n <= length t_ -> n <= length f_ ->
  (forall what, curve.pwflat_ctor n t_ f_ _f <> Thrown what) /\
  exists p,
    curve.pwflat_ctor n t_ f_ _f = Returned p /\
    curve.t p = firstn n t_ /\ curve.f p = firstn n f_ /\ curve._f p = _f /\
    length (curve.t p) = n /\ length (curve.f p) = n /\
    pwflat.monotonic (length (curve.t p)) (curve.t p) = pwflat.monotonic n t_ /\
    (strictly_increasing (length (curve.t p)) (curve.t p) <-> strictly_increasing n t_).
Proof.
  intros Ht Hf. unfold curve.pwflat_ctor.
  destruct (Nat.leb_spec n (length t_)) as [_|]; [|lia].
  destruct (Nat.leb_spec n (length f_)) as [_|]; [|lia].
  cbn [andb]. split; [discriminate|].
  eexists. split; [reflexivity|]. cbn [curve.t curve.f curve._f].
  repeat split.
  - now apply firstn_length_le.
  - now apply firstn_length_le.
  - apply monotonic_firstn.
  - now apply strictly_increasing_firstn.
  - now apply strictly_increasing_firstn.
Qed.

(** C6, as the source has it.  [back()] on a piecewise-flat curve never
    yields an error: with pillars it returns [(t.last, f.last)], and
    with none it reads the back of an empty vector, which is undefined. *)
Theorem pwflat_back_last (p : @curve.pwflat R) :
  (forall what, curve.pwflat_back p <> Thrown what) /\
  (curve.t p <> [] -> curve.f p <> [] ->
   curve.pwflat_back p = Returned (last (curve.t p) NaN, last (curve.f p) NaN)) /\
  (curve.t p = [] -> curve.pwflat_back p = Undefined).
Proof.
  destruct p as [[|x t'] [|y f'] e]; cbn; repeat split;
    try discriminate; try congruence; try reflexivity.
Qed.
End Construction.

Lemma pwflat_ctor_copies_witness :
  2 <= length [qz 1; qz 2] /\ 2 <= length [qz 5; qz 6] /\
  exists p, curve.pwflat_ctor 2 [qz 1; qz 2] [qz 5; qz 6] NaN = Returned p /\
            curve.t p = [qz 1; qz 2].
Proof.
  assert (H1 : 2 <= length [qz 1; qz 2]) by (cbn; lia).
  assert (H2 : 2 <= length [qz 5; qz 6]) by (cbn; lia).
  split; [exact H1|]. split; [exact H2|].
  destruct (proj2 (@pwflat_ctor_copies Qc _ 2 [qz 1; qz 2] [qz 5; qz 6] NaN H1 H2))
    as (p & Hp & Ht & _).
  exists p. split; [exact Hp | exact Ht].
Defined.

(** C5 fails on the source: times that are not strictly increasing are
    accepted, and the curve built holds them. *)
Lemma pwflat_ctor_accepts_unsorted :
  pwflat.monotonic 2 [qz 1; qz 1] = false /\
  curve.pwflat_ctor 2 [qz 1; qz 1] [qz 2; qz 3] NaN
  = Returned {| curve.t := [qz 1; qz 1]; curve.f := [qz 2; qz 3]; curve._f := NaN |} /\
  curve.pwflat_ctor 2 [qz 1; qz 1] [qz 2; qz 3] NaN
  <> Thrown "invalid pillar sequence"%string.
Proof.
  split; [vm_compute; reflexivity|]. split; [reflexivity | discriminate].
Qed.

(** C6 fails on the source: [back()] on the curve with no pillars and
    extrapolation 3 (the curve [p1] of [pwflat_test]) is undefined, not an
    error. *)
Lemma pwflat_back_empty_undefined :
  curve.pwflat_back (curve.pwflat_flat (qz 3)) = Undefined /\
  curve.pwflat_back (curve.pwflat_flat (qz 3)) <> Thrown "empty curve"%string.
Proof. split; [reflexivity | discriminate]. Qed.

Lemma pwflat_back_last_witness :
  let p := {| curve.t := [qz 1; qz 2]; curve.f := [qz 5; qz 6]; curve._f := NaN |} in
  curve.t p <> [] /\ curve.f p <> [] /\ curve.pwflat_back p = Returned (qz 2, qz 6).
Proof.
  intros p.
  assert (H1 : curve.t p <> []) by discriminate.
  assert (H2 : curve.f p <> []) by discriminate.
  split; [exact H1|]. split; [exact H2|].
  exact (proj1 (proj2 (pwflat_back_last p)) H1 H2).
Defined.

(** ** Negative query times *)

Section NegativeTime.
Context {R : Type} {Sc : Scalar R}.

(** C8, as the source has it.  For [u < 0] the kernel's [value] and the
    piecewise-flat curve's [value(u)] return not-a-number.  The constant
    curve's [value(u)] returns its scalar [f] for every [u], negative or
    not.  For every [u], [value(u)] of the sum of two curves, the object
    that [plus(f, g)] builds, returns [f.value(u) + g.value(u)], which is
    not-a-number as soon as one operand's value is. *)
Theorem value_negative_time :
  (forall u : num R, nlt u n0 = true ->
     (forall (n : nat) (t f : list (num R)) (_f : num R), pwflat.value u n t f _f = NaN) /\
     (forall p : curve.pwflat, curve.value (curve.pwflat_base p) u = NaN)) /\
  (forall (c : curve.constant) (u : num R),
     curve.value (curve.constant_base c) u = curve.c_f c) /\
  (forall (f g : curve.base) (u : num R),
     curve.plus_object_value (curve.plus_ctor f g) u
     = Returned (nadd (curve.value f u) (curve.value g u))) /\
  (forall (f g : curve.base) (u : num R),
     curve.value f u = NaN \/ curve.value g u = NaN ->
     curve.plus_object_value (curve.plus_ctor f g) u = Returned NaN).
Proof.
  split; [|split; [|split]].
  - intros u Hu. split.
    + intros n t f _f. unfold pwflat.value. now rewrite Hu.
    + intros p. cbn. unfold curve.pwflat_value, pwflat.forward, pwflat.value.
      now rewrite Hu.
  - reflexivity.
  - reflexivity.
  - intros f g u [H|H]; cbn; unfold curve.plus_value; cbn [curve.p_f curve.p_g];
      rewrite H; [reflexivity|].
    now destruct (curve.value f u).
Qed.

(** The sum of a curve and a scalar, the object that [plus(f, s)] builds:
    [value(u)] reads the member [g], which dangles. *)
Lemma plus_scalar_value_undefined (f : curve.base) (s u : num R) :
  curve.plus_object_value (curve.plus_ctor_scalar f s) u = Undefined.
Proof. reflexivity. Qed.
End NegativeTime.

Lemma value_negative_time_witness :
  nlt (qz (-1)) n0 = true /\
  curve.value
    (curve.pwflat_base {| curve.t := scenario_t; curve.f := scenario_f; curve._f := qz 5 |})
    (qz (-1)) = NaN.
Proof.
  split; [reflexivity|].
  exact (proj2 (proj1 (@value_negative_time Qc _) (qz (-1)) eq_refl) _).
Defined.

(** C8 fails on the source: at [u = -1] the constant curve 1 has value 1,
    and the sum of the constant curves 1 and 3 has value 4. *)
Lemma constant_value_negative_time :
  nlt (qz (-1)) n0 = true /\
  curve.value (curve.constant_base {| curve.c_f := qz 1 |}) (qz (-1)) = qz 1 /\
  curve.value (curve.constant_base {| curve.c_f := qz 1 |}) (qz (-1)) <> NaN /\
  curve.value
    (curve.plus_base {| curve.p_f := curve.constant_base {| curve.c_f := qz 1 |};
                        curve.p_g := curve.constant_base {| curve.c_f := qz 3 |} |})
    (qz (-1)) = qz 4.
Proof.
  split; [reflexivity|]. split; [reflexivity|]. split; [discriminate | by_evaluation].
Qed.

(** ** Discount factors *)

Section Discount.
Context {R : Type} {Sc : Scalar R} {L : ScalarLaws R}.
Context {E : Exponential R} {EL : ExponentialLaws R}.

Lemma nexp_zero : nexp (nneg (n0 : num R)) = n1.
Proof. cbn. now rewrite opp_zero, expo_zero. Qed.

Lemma nexp_nonneg (a : num R) : finite a -> nge (nexp (nneg a)) n0 = true.
Proof.
  intros [x ->]. cbn. now rewrite expo_nonneg.
Qed.

Lemma nsub_diag (a : num R) : finite a -> nsub a a = n0.
Proof. intros [x ->]. cbn. now rewrite sub_diag. Qed.

(** C9, as the source has it.  [discount(u, t)] is [exp(-integral(u, t))],
    on the interface and in the kernel.  It is [>= 0] whenever
    [integral(u, t)] is a number and not-a-number otherwise; it is 1
    whenever [integral(u, t)] is 0, which at [u == t] holds for a constant
    curve with a finite rate at a finite time, and for a piecewise-flat
    curve whenever the kernel's [integral(u)] is a number.  For a sum it
    is [exp(-(f.integral(u, 0) + g.integral(u, 0)))] whatever [t] is. *)
Theorem discount_exp_integral :
  (forall (c : curve.base) (u t : num R),
     curve.discount c u t = nexp (nneg (curve.integral c u t))) /\
  (forall (u : num R) (n : nat) (t f : list (num R)) (_f : num R),
     pwflat.discount u n t f _f = nexp (nneg (pwflat.integral u n t f _f))) /\
  (forall (c : curve.base) (u t : num R),
     finite (curve.integral c u t) -> nge (curve.discount c u t) n0 = true) /\
  (forall (c : curve.base) (u t : num R),
     curve.integral c u t = NaN -> curve.discount c u t = NaN) /\
  (forall (c : curve.base) (u t : num R),
     curve.integral c u t = n0 -> curve.discount c u t = n1) /\
  (forall (c : curve.constant) (u : num R),
     finite (curve.c_f c) -> finite u ->
     curve.discount (curve.constant_base c) u u = n1) /\
  (forall (p : curve.pwflat) (u : num R),
     finite (pwflat.integral u (length (curve.t p)) (curve.t p) (curve.f p) (curve._f p)) ->
     curve.discount (curve.pwflat_base p) u u = n1) /\
  (forall (f g : curve.base) (u t : num R),
     curve.discount (curve.plus_base {| curve.p_f := f; curve.p_g := g |}) u t
     = nexp (nneg (nadd (curve.integral f u n0) (curve.integral g u n0)))).
Proof.
  repeat split.
  - intros c u t Hfin. unfold curve.discount. now apply nexp_nonneg.
  - intros c u t H. unfold curve.discount. now rewrite H.
  - intros c u t H. unfold curve.discount. rewrite H. apply nexp_zero.
  - intros c u [k Hk] Hu. unfold curve.discount. cbn.
    unfold curve.constant_integral. rewrite Hk, (nsub_diag Hu). cbn.
    rewrite mul_zero_r. apply nexp_zero.
  - intros p u Hfin. unfold curve.discount. cbn.
    unfold curve.pwflat_integral. rewrite (nsub_diag Hfin). apply nexp_zero.
Qed.
End Discount.

Lemma discount_exp_integral_witness :
  finite (Fin 2%R) /\ finite (Fin 3%R) /\
  curve.discount (curve.constant_base {| curve.c_f := Fin 2%R |}) (Fin 3%R) (Fin 3%R)
  = Fin 1%R.
Proof.
  assert (H2 : finite (Fin 2%R)) by (eexists; reflexivity).
  assert (H3 : finite (Fin 3%R)) by (eexists; reflexivity).
  split; [exact H2|]. split; [exact H3|].
  exact (proj1 (proj2 (proj2 (proj2 (proj2 (proj2
           (@discount_exp_integral R _ R_ScalarLaws _ R_ExponentialLaws))))))
           {| curve.c_f := Fin 2%R |} (Fin 3%R) H2 H3).
Defined.

(** C9 fails on the source.  The sum of the constant curves 1 and 3 has
    [discount(1, 1) = exp(-4)], not 1, because its integral starts at 0
    whatever [t] is; and the constant curve built without a rate has a
    not-a-number discount, which is not [>= 0]. *)
Lemma discount_not_one_for_plus :
  curve.discount
    (curve.plus_base {| curve.p_f := curve.constant_base {| curve.c_f := Fin 1%R |};
                        curve.p_g := curve.constant_base {| curve.c_f := Fin 3%R |} |})
    (Fin 1%R) (Fin 1%R) <> Fin 1%R /\
  nge (curve.discount (curve.constant_base {| curve.c_f := NaN |}) (Fin 0%R) (Fin 0%R))
      (Fin 0%R) = false.
Proof.
  split; [|reflexivity].
  cbn. intros H. injection H as H.
  pose proof (exp_inv _ _ (eq_trans H (eq_sym exp_0))) as H0. lra.
Qed.

(** ** [translate] and the scoped translation *)

Section Translate.
Context {R : Type} {Sc : Scalar R} {L : ScalarLaws R}.

Lemma length_transform (g : num R -> num R) (t n : nat) (m : store R) :
  t + n <= length m -> length (transform g t n m) = length m.
Proof.
  intros H. unfold transform.
  rewrite !length_app, length_map, !length_firstn, !length_skipn. lia.
Qed.

(** [transform] changes the elements of its range and no other. *)
Lemma at_transform (g : num R -> num R) (t n : nat) (m : store R) (i : nat) :
  t + n <= length m ->
  at_ (transform g t n m) i
  = if (t <=? i) && (i <? t + n) then g (at_ m i) else at_ m i.
Proof.
  intros H. unfold transform, at_.
  assert (H1 : length (firstn t m) = t) by (apply firstn_length_le; lia).
  assert (H2 : length (map g (firstn n (skipn t m))) = n).
  { rewrite length_map, length_firstn, length_skipn. lia. }
  destruct (Nat.leb_spec t i) as [Hti|Hti]; cbn [andb].
  - rewrite app_nth2 by lia. rewrite H1.
    destruct (Nat.ltb_spec i (t + n)) as [Hin|Hin].
    + rewrite app_nth1 by lia.
      rewrite (nth_indep _ NaN (g NaN)) by lia.
      rewrite map_nth, nth_firstn, nth_skipn.
      destruct (Nat.ltb_spec (i - t) n); [|lia].
      do 2 f_equal. lia.
    + rewrite app_nth2 by lia. rewrite H2, nth_skipn. f_equal. lia.
  - rewrite app_nth1 by lia. rewrite nth_firstn.
    destruct (Nat.ltb_spec i t); [reflexivity | lia].
Qed.

Lemma store_ext (m m' : store R) :
  length m = length m' -> (forall i, i < length m -> at_ m i = at_ m' i) -> m = m'.
Proof. intros Hlen H. now apply (nth_ext m m' NaN NaN). Qed.

Lemma transform_nothing (g : num R -> num R) (t : nat) (m : store R) :
  t <= length m -> transform g t 0 m = m.
Proof.
  intros H. apply store_ext.
  - apply length_transform. lia.
  - intros i _. rewrite at_transform by lia.
    destruct (Nat.leb_spec t i), (Nat.ltb_spec i (t + 0)); cbn; try reflexivity; lia.
Qed.

(** The span [translate] returns is a final part of the span it is
    given: [k] times are dropped in front. *)
Lemma translate_span_shape (u : num R) (s : span) (m : store R) :
  let s1 := snd (pwflat.translate_span u s m) in
  let k := size s - size s1 in
  k <= size s /\ data s1 = data s + k /\ size s1 = size s - k /\
  fst (pwflat.translate_span u s m) = transform (fun ti => nsub ti u) (data s) (size s) m.
Proof.
  cbn. unfold upper_bound. rewrite upper_bound_partition.
  pose proof (partition_point_range (fun x => negb (nlt n0 x))
                (transform (fun ti => nsub ti u) (data s) (size s) m)
                (size s) (data s) (size s)) as Hr.
  set (r := partition_point_loop _ _ _ _ _) in *. clearbody r.
  repeat split; lia.
Qed.

(** [translate(u, t)] and then [translate(-u, result)] in exact
    arithmetic: the times of the span returned are restored, the [k] times
    dropped in front of it stay shifted by [-u]. *)
Lemma translate_back_store (u : num R) (s : span) (m : store R) :
  finite u -> data s + size s <= length m ->
  let m1 := fst (pwflat.translate_span u s m) in
  let s1 := snd (pwflat.translate_span u s m) in
  fst (pwflat.translate_span (nneg u) s1 m1)
  = transform (fun ti => nsub ti u) (data s) (size s - size s1) m.
Proof.
  intros Hu Hs m1 s1.
  destruct (translate_span_shape u s m) as (Hk & Hdata & Hsize & Hm1).
  fold s1 in Hk, Hdata, Hsize. fold m1 in Hm1.
  set (k := size s - size s1) in *.
  unfold pwflat.translate_span at 1. cbn [pwflat.translate fst].
  rewrite Hdata, Hm1.
  assert (Hlen1 : length (transform (fun ti => nsub ti u) (data s) (size s) m) = length m)
    by now apply length_transform.
  apply store_ext.
  - rewrite !length_transform; lia.
  - intros i _. rewrite !at_transform by (try rewrite Hlen1; lia).
    destruct (Nat.leb_spec (data s + k) i), (Nat.ltb_spec i (data s + k + size s1)),
      (Nat.leb_spec (data s) i), (Nat.ltb_spec i (data s + size s)),
      (Nat.ltb_spec i (data s + k)); cbn [andb]; try lia; try reflexivity.
    now apply nsub_neg_cancel.
Qed.

Lemma at_elements (s : span) (m : store R) (i : nat) :
  i < size s -> at_ (elements s m) i = at_ m (data s + i).
Proof.
  intros Hi. unfold elements, at_. rewrite nth_firstn, nth_skipn.
  destruct (Nat.ltb_spec i (size s)); [reflexivity | lia].
Qed.

Lemma length_elements (s : span) (m : store R) :
  data s + size s <= length m -> length (elements s m) = size s.
Proof.
  intros H. unfold elements. rewrite length_firstn, length_skipn. lia.
Qed.

(** In exact arithmetic the destructor of the scoped translation undoes
    its constructor. *)
Lemma dtor_ctor (u : num R) (s : span) (m : store R) :
  finite u -> data s + size s <= length m ->
  translate.dtor (fst (translate.ctor u s m)) (snd (translate.ctor u s m)) = m.
Proof.
  intros Hu Hs. unfold translate.ctor, translate.dtor.
  destruct (translate_span_shape u s m) as (_ & _ & _ & Hm1).
  destruct (pwflat.translate_span u s m) as [m1 s1]. cbn in Hm1 |- *.
  rewrite Hm1.
  assert (Hlen1 : length (transform (fun ti => nsub ti u) (data s) (size s) m) = length m)
    by now apply length_transform.
  apply store_ext.
  - rewrite !length_transform; lia.
  - intros i _. rewrite !at_transform by lia.
    destruct ((data s <=? i) && (i <? data s + size s)); [|reflexivity].
    now apply nsub_neg_cancel.
Qed.

Lemma nlt_nsub_compat (a b u : num R) :
  finite u -> nlt a b = true -> nlt (nsub a u) (nsub b u) = true.
Proof.
  intros [z ->]. destruct a, b; cbn; try congruence. apply ltb_sub_compat.
Qed.

(** On strictly increasing times and in exact arithmetic, the span
    [translate] returns holds the shifted times that are above 0, and
    those only. *)
Lemma translate_keeps_positive (u : num R) (s : span) (m : store R) :
  data s + size s <= length m ->
  strictly_increasing (size s) (elements s m) ->
  let m1 := fst (pwflat.translate_span u s m) in
  let s1 := snd (pwflat.translate_span u s m) in
  (forall i, data s <= i -> i < data s1 -> ngt (at_ m1 i) n0 = false) /\
  (forall i, data s1 <= i -> i < data s + size s -> ngt (at_ m1 i) n0 = true).
Proof.
  intros Hs Hinc. cbn. unfold upper_bound. rewrite upper_bound_partition.
  set (m1 := transform (fun ti => nsub ti u) (data s) (size s) m).
  pose proof (partition_point_range (fun x => negb (nlt n0 x)) m1
                (size s) (data s) (size s)) as Hr.
  destruct (@partition_point_spec R (fun x => negb (nlt n0 x)) m1
              (size s) (data s) (size s)) as [H1 H2].
  - lia.
  - intros i j Hi Hij Hj Hpj.
    destruct (nlt n0 (at_ m1 i)) eqn:Hpi; [exfalso | reflexivity].
    apply negb_true_iff in Hpj.
    unfold m1 in Hpi, Hpj. rewrite at_transform in Hpi, Hpj by exact Hs.
    destruct (Nat.leb_spec (data s) i), (Nat.ltb_spec i (data s + size s)),
      (Nat.leb_spec (data s) j), (Nat.ltb_spec j (data s + size s));
      try lia; cbn [andb] in Hpi, Hpj.
    assert (Hu : finite u).
    { destruct u; [|eexists; reflexivity].
      destruct (at_ m i); discriminate. }
    pose proof (Hinc (i - data s) (j - data s) ltac:(lia) ltac:(lia)) as Hlt.
    rewrite !at_elements in Hlt by lia.
    replace (data s + (i - data s)) with i in Hlt by lia.
    replace (data s + (j - data s)) with j in Hlt by lia.
    apply nlt_nsub_compat with (u := u) in Hlt; [|exact Hu].
    pose proof (nlt_trans _ _ _ Hpi Hlt). congruence.
  - set (r := partition_point_loop _ _ _ _ _) in *. clearbody r.
    replace (data s + (r - data s)) with r by lia.
    unfold ngt. split.
    + intros i Hi1 Hi2. now apply negb_true_iff, H1.
    + intros i Hi1 Hi2. now apply negb_false_iff, H2.
Qed.

End Translate.

Section ThereAndBack.
Context {R : Type} {Sc : Scalar R}.

(** The array is what it was after [transform] exactly when [g] gives
    back each element of the range. *)
Lemma transform_fixes (g : num R -> num R) (t n : nat) (m : store R) :
  t + n <= length m ->
  (transform g t n m = m <-> forall i, t <= i -> i < t + n -> g (at_ m i) = at_ m i).
Proof.
  intros Hs. split.
  - intros H i H1 H2. apply (f_equal (fun l => at_ l i)) in H.
    rewrite at_transform in H by exact Hs.
    destruct (Nat.leb_spec t i), (Nat.ltb_spec i (t + n)); try lia. exact H.
  - intros H. apply store_ext; [now apply length_transform|].
    intros i _. rewrite at_transform by exact Hs.
    destruct (Nat.leb_spec t i), (Nat.ltb_spec i (t + n)); cbn [andb]; try reflexivity.
    apply H; lia.
Qed.

(** The array after [translate(u, t)] and [translate(-u, result)], time
    by time: shifted in front of the span returned, shifted there and back
    inside it, untouched elsewhere. *)
Lemma translate_back_times (u : num R) (s : span) (m : store R) (i : nat) :
  data s + size s <= length m ->
  let m1 := fst (pwflat.translate_span u s m) in
  let s1 := snd (pwflat.translate_span u s m) in
  at_ (fst (pwflat.translate_span (nneg u) s1 m1)) i
  = if (data s <=? i) && (i <? data s1) then nsub (at_ m i) u
    else if (data s1 <=? i) && (i <? data s + size s)
         then nsub (nsub (at_ m i) u) (nneg u)
         else at_ m i.
Proof.
  intros Hs m1 s1.
  destruct (translate_span_shape u s m) as (Hk & Hdata & Hsize & Hm1).
  fold s1 in Hk, Hdata, Hsize. fold m1 in Hm1.
  unfold pwflat.translate_span at 1. cbn [pwflat.translate fst].
  assert (Hlen1 : length m1 = length m) by (rewrite Hm1; now apply length_transform).
  rewrite at_transform by lia. rewrite Hm1, at_transform by exact Hs.
  destruct (Nat.leb_spec (data s1) i), (Nat.ltb_spec i (data s1 + size s1)),
    (Nat.leb_spec (data s) i), (Nat.ltb_spec i (data s + size s)),
    (Nat.ltb_spec i (data s1)); cbn [andb]; try lia; reflexivity.
Qed.

(** The array after the block of a scoped translation is left. *)
Lemma scoped_store (A : Type) (u : num R) (s : span) (body : span -> store R -> outcome A)
    (m : store R) :
  data s + size s <= length m ->
  snd (translate.scoped u s body m)
  = transform (fun ti => nsub (nsub ti u) (nneg u)) (data s) (size s) m.
Proof.
  intros Hs. unfold translate.scoped, translate.ctor, translate.dtor.
  destruct (translate_span_shape u s m) as (_ & _ & _ & Hm1).
  destruct (pwflat.translate_span u s m) as [m1 s1]. cbn in Hm1 |- *.
  rewrite Hm1.
  assert (Hlen1 : length (transform (fun ti => nsub ti u) (data s) (size s) m) = length m)
    by now apply length_transform.
  apply store_ext.
  - rewrite !length_transform; lia.
  - intros i _. rewrite !at_transform by lia.
    destruct ((data s <=? i) && (i <? data s + size s)); reflexivity.
Qed.

(** C7, as the source has it.  [translate(u, t)] shifts every time of the
    span by [-u] in place and returns a final part of the span; when the
    shifted times above 0 come after the others, as [std::upper_bound]
    requires, that part holds them and no other.  [translate(-u, result)]
    then leaves each time [ti] of that part at [(ti - u) - (-u)] and the
    [k] times in front of it at [ti - u].  The scoped translation shifts
    back over the whole span: once its block is left, by return or by
    exception, each time of the span is at [(ti - dt) - (-dt)].  In both
    cases the array is again what it was exactly when each of these
    results is the time it came from; nothing in the code makes it so. *)
Theorem translate_back_restores_view (u : num R) (s : span) (m : store R) :
  data s + size s <= length m ->
  let shift := fun ti : num R => nsub ti u in
  let back := fun ti : num R => nsub (nsub ti u) (nneg u) in
  let m1 := fst (pwflat.translate_span u s m) in
  let s1 := snd (pwflat.translate_span u s m) in
  let m2 := fst (pwflat.translate_span (nneg u) s1 m1) in
  let k := size s - size s1 in
  m1 = transform shift (data s) (size s) m /\
  (data s1 = data s + k /\ size s1 = size s - k /\ k <= size s) /\
  ((forall i j, data s <= i -> i < j -> j < data s + size s ->
      ngt (at_ m1 i) n0 = true -> ngt (at_ m1 j) n0 = true) ->
   (forall i, data s <= i -> i < data s1 -> ngt (at_ m1 i) n0 = false) /\
   (forall i, data s1 <= i -> i < data s + size s -> ngt (at_ m1 i) n0 = true)) /\
  m2 = transform back (data s1) (size s1) (transform shift (data s) k m) /\
  (m2 = m <->
   (forall i, data s <= i -> i < data s1 -> shift (at_ m i) = at_ m i) /\
   (forall i, data s1 <= i -> i < data s + size s -> back (at_ m i) = at_ m i)) /\
  (forall (A : Type) (body : span -> store R -> outcome A),
     fst (translate.scoped u s body m) = body (last_ s (size s1)) m1 /\
     snd (translate.scoped u s body m) = transform back (data s) (size s) m /\
     (snd (translate.scoped u s body m) = m <->
      forall i, data s <= i -> i < data s + size s -> back (at_ m i) = at_ m i)).
Proof.
  intros Hs shift back m1 s1 m2 k.
  destruct (translate_span_shape u s m) as (Hk & Hdata & Hsize & Hm1).
  fold s1 in Hk, Hdata, Hsize. fold m1 in Hm1. fold k in Hk, Hdata, Hsize.
  assert (Hlen1 : length m1 = length m) by (rewrite Hm1; now apply length_transform).
  assert (Hlenk : length (transform shift (data s) k m) = length m)
    by (apply length_transform; lia).
  assert (Hlen2 : length m2 = length m).
  { unfold m2, pwflat.translate_span. cbn [pwflat.translate fst].
    rewrite length_transform; lia. }
  assert (Hat2 : forall i, at_ m2 i
            = if (data s <=? i) && (i <? data s1) then shift (at_ m i)
              else if (data s1 <=? i) && (i <? data s + size s) then back (at_ m i)
                   else at_ m i)
    by (intros i; now apply translate_back_times).
  split; [exact Hm1|]. split; [now repeat split|].
  split; [|split; [|split]].
  - (* the span returned *)
    intros Hpart.
    assert (Hs1 : data s1 = partition_point_loop (size s) (fun x => negb (nlt n0 x)) m1
                              (data s) (size s)).
    { unfold s1, m1. cbn. unfold upper_bound. rewrite upper_bound_partition.
      pose proof (partition_point_range (fun x => negb (nlt n0 x))
                    (transform (fun ti => nsub ti u) (data s) (size s) m)
                    (size s) (data s) (size s)) as Hr.
      set (r := partition_point_loop _ _ _ _ _) in *. clearbody r. lia. }
    destruct (@partition_point_spec R (fun x => negb (nlt n0 x)) m1
                (size s) (data s) (size s)) as [H1 H2].
    + lia.
    + intros i j Hi Hij Hj Hpj.
      destruct (nlt n0 (at_ m1 i)) eqn:Hpi; [|reflexivity].
      apply negb_true_iff in Hpj.
      pose proof (Hpart i j Hi Hij Hj Hpi) as Hpj'. unfold ngt in Hpj'. congruence.
    + rewrite <- Hs1 in H1, H2. unfold ngt. split.
      * intros i Hi1 Hi2. now apply negb_true_iff, H1.
      * intros i Hi1 Hi2. now apply negb_false_iff, H2.
  - (* the array after the two calls *)
    apply store_ext; [rewrite length_transform; lia|].
    intros i _. rewrite Hat2, !at_transform by lia.
    destruct (Nat.leb_spec (data s1) i), (Nat.ltb_spec i (data s1 + size s1)),
      (Nat.leb_spec (data s) i), (Nat.ltb_spec i (data s + size s)),
      (Nat.ltb_spec i (data s + k)), (Nat.ltb_spec i (data s1));
      cbn [andb]; try lia; reflexivity.
  - (* when it is the array before them *)
    split.
    + intros Heq. split; intros i Hi1 Hi2;
        pose proof (Hat2 i) as Hi; rewrite Heq in Hi;
        destruct (Nat.leb_spec (data s) i), (Nat.ltb_spec i (data s1)),
          (Nat.leb_spec (data s1) i), (Nat.ltb_spec i (data s + size s));
          cbn [andb] in Hi; try lia; now symmetry.
    + intros [Hfront Hpart]. apply store_ext; [exact Hlen2|].
      intros i _. rewrite Hat2.
      destruct (Nat.leb_spec (data s) i), (Nat.ltb_spec i (data s1)),
        (Nat.leb_spec (data s1) i), (Nat.ltb_spec i (data s + size s));
        cbn [andb]; try lia; try reflexivity.
      * apply Hfront; lia.
      * apply Hpart; lia.
  - (* the scoped translation *)
    intros A body.
    assert (Hstore : snd (translate.scoped u s body m) = transform back (data s) (size s) m)
      by now apply scoped_store.
    split; [|split].
    + unfold translate.scoped, translate.ctor, translate.view, last_, s1, m1.
      destruct (pwflat.translate_span u s m) as [m1' s1']. reflexivity.
    + exact Hstore.
    + rewrite Hstore. now apply transform_fixes.
Qed.
End ThereAndBack.

Ltac stores_by_evaluation := apply nums_eqb_eq; vm_compute; reflexivity.

Lemma translate_back_restores_view_witness :
  data double_span + size double_span <= length double_times /\
  forall (A : Type) (body : span -> store float -> outcome A),
    snd (translate.scoped (b64 1) double_span body double_times)
    = transform (fun ti => nsub (nsub ti (b64 1)) (nneg (b64 1))) 0 3 double_times.
Proof.
  assert (H : data double_span + size double_span <= length double_times) by (cbn; lia).
  split; [exact H|].
  intros A body.
  exact (proj1 (proj2
           (proj2 (proj2 (proj2 (proj2 (proj2
              (@translate_back_restores_view float _ (b64 1) double_span double_times H)))))
              A body))).
Defined.

(** C7 fails on the source, on [double]s.  From [t = [1, 2, 4]],
    [translate(1, t)] leaves [[0, 1, 3]] and returns the span of its last
    two times; [translate(-1, result)] leaves [[0, 2, 4]], not the original
    array.  The scoped translation does not restore every array either:
    with the shift 1e16 the three times round to neighbours of -1e16 and
    come back as [[0, 2, 4]], and with the shift 1 the times 0.1 and 0.3
    come back as 0.09999999999999998 and 0.30000000000000004. *)
Lemma translate_back_loses_expired :
  let m := double_times in
  let s := double_span in
  let m1 := fst (pwflat.translate_span (b64 1) s m) in
  let s1 := snd (pwflat.translate_span (b64 1) s m) in
  let w := [b64 tenth; b64 three_tenths; b64 2] in
  (m1 = [b64 0; b64 1; b64 3] /\
   s1 = {| data := 1; size := 2 |} /\
   fst (pwflat.translate_span (nneg (b64 1)) s1 m1) = [b64 0; b64 2; b64 4] /\
   fst (pwflat.translate_span (nneg (b64 1)) s1 m1) <> m) /\
  (forall (A : Type) (body : span -> store float -> outcome A),
     snd (translate.scoped (b64 1e16) s body m) = [b64 0; b64 2; b64 4] /\
     snd (translate.scoped (b64 1e16) s body m) <> m /\
     snd (translate.scoped (b64 1) s body w)
     = [b64 0x1.9999999999998p-4; b64 0x1.3333333333334p-2; b64 2] /\
     snd (translate.scoped (b64 1) s body w) <> w).
Proof.
  intros m s m1 s1 w.
  split.
  - assert (Hm1 : m1 = [b64 0; b64 1; b64 3]) by (vm_compute; reflexivity).
    assert (Hs1 : s1 = {| data := 1; size := 2 |}) by (vm_compute; reflexivity).
    assert (Hm2 : fst (pwflat.translate_span (nneg (b64 1)) s1 m1) = [b64 0; b64 2; b64 4])
      by (vm_compute; reflexivity).
    repeat split; try assumption.
    rewrite Hm2. intros H. apply (f_equal (fun l => nums_eqb l m)) in H.
    vm_compute in H. discriminate.
  - intros A body.
    assert (H1 : snd (translate.scoped (b64 1e16) s body m) = [b64 0; b64 2; b64 4])
      by (vm_compute; reflexivity).
    assert (H2 : snd (translate.scoped (b64 1) s body w)
                 = [b64 0x1.9999999999998p-4; b64 0x1.3333333333334p-2; b64 2])
      by (vm_compute; reflexivity).
    split; [exact H1|]. split; [|split; [exact H2|]].
    + rewrite H1. intros H. apply (f_equal (fun l => nums_eqb l m)) in H.
      vm_compute in H. discriminate.
    + rewrite H2. intros H. apply (f_equal (fun l => nums_eqb l w)) in H.
      vm_compute in H. discriminate.
Qed.

(** On the times of [pwflat_translate_test] the shift by 1 and the shift
    back are exact on [double]s: the scoped translation restores them. *)
Example scoped_translate_test_times :
  forall (A : Type) (body : span -> store float -> outcome A),
    snd (translate.scoped (b64 1) double_span body double_times) = double_times.
Proof. intros A body. vm_compute. reflexivity. Qed.

(** The second block of [pwflat_translate_test]: the calls
    [translate(0, t)], [translate(1, t0)], [translate(2, t1)] and
    [translate(-3, t2)] on [t = [1, 2, 4]], each on the span the call
    before returned, leave [[1 - 1, 2 - 1 - 2, 4]] in the array. *)
Example translate_test_sequence :
  let m := [qz 1; qz 2; qz 4] in
  let r0 := pwflat.translate_span (qz 0) {| data := 0; size := 3 |} m in
  let r1 := pwflat.translate_span (qz 1) (snd r0) (fst r0) in
  let r2 := pwflat.translate_span (qz 2) (snd r1) (fst r1) in
  let r3 := pwflat.translate_span (qz (-3)) (snd r2) (fst r2) in
  elements (snd r1) (fst r1) = [qz 1; qz 3] /\
  elements (snd r2) (fst r2) = [qz 1] /\
  fst r3 = [qz 0; qz (-1); qz 4].
Proof. repeat split; stores_by_evaluation. Qed.

(** ** The antiderivative without the test for remaining time *)

Section Unguarded.
Context {R : Type} {Sc : Scalar R} {L : ScalarLaws R}.

Add Ring scalar_ring_unguarded : (@scalar_ring R Sc L).

Lemma add_mul_zero (a b : R) : add a (mul b zero) = a.
Proof. ring. Qed.

(** When the rate of the last term and the sum before it are numbers,
    adding the last term for no remaining time changes nothing. *)
Lemma antiderivative_sum_agrees (u : num R) (n : nat) (t f : list (num R)) (_f : num R) :
  let k := intervals_below u n t in
  finite (if k =? n then _f else at_ f k) ->
  finite (full_intervals k t f) ->
  nle (start_of t k) u = true ->
  antiderivative u n t f _f = antiderivative_sum u n t f _f.
Proof.
  intros k [r Hr] [I_ HI] Hle. unfold antiderivative, antiderivative_sum.
  fold k. rewrite Hr, HI.
  destruct (ngt u (start_of t k)) eqn:Hgt; [reflexivity|].
  unfold ngt in Hgt.
  destruct (start_of t k) as [|x], u as [|y]; cbn in *; try discriminate.
  apply negb_true_iff in Hle. rewrite (ltb_total _ _ Hgt Hle).
  now rewrite sub_diag, add_mul_zero.
Qed.
End Unguarded.

(** At the last pillar with no extrapolation the two differ: the source
    and the guarded sum give 9, the unguarded sum is not-a-number. *)
Example antiderivative_at_last_pillar :
  pwflat.integral (qz 3) 3 scenario_t scenario_f NaN = qz 9 /\
  antiderivative (qz 3) 3 scenario_t scenario_f NaN = qz 9 /\
  antiderivative_sum (qz 3) 3 scenario_t scenario_f NaN = NaN.
Proof. repeat split; by_evaluation. Qed.

(** ** [monotonic] *)

Section Monotonic.
Context {R : Type} {Sc : Scalar R} {L : ScalarLaws R}.

(** [adjacent_find] reaches the end exactly when no element stands in the
    relation to its successor. *)
Lemma adjacent_find_end (p : num R -> num R -> bool) (l : list (num R)) :
  adjacent_find p l = length l <->
  (forall i, S i < length l -> p (at_ l i) (at_ l (S i)) = false).
Proof.
  induction l as [|x l IH].
  - cbn. split; [intros _ i Hi; lia | reflexivity].
  - destruct l as [|y l].
    + cbn. split; [intros _ i Hi; lia | reflexivity].
    + change (adjacent_find p (x :: y :: l))
        with (if p x y then 0 else S (adjacent_find p (y :: l))).
      change (length (x :: y :: l)) with (S (length (y :: l))).
      destruct (p x y) eqn:Hxy.
      * split; [discriminate|].
        intros H. specialize (H 0 ltac:(cbn; lia)). cbn in H. congruence.
      * split.
        -- intros H. apply Nat.succ_inj in H. pose proof (proj1 IH H) as H'.
           intros [|i] Hi; [exact Hxy|]. apply (H' i). cbn in *. lia.
        -- intros H. f_equal. apply (proj2 IH).
           intros i Hi. apply (H (S i)). cbn in *. lia.
Qed.

(** Times that increase from each one to the next increase throughout. *)
Lemma increasing_steps (n : nat) (t : list (num R)) :
  (forall i, S i < n -> nlt (at_ t i) (at_ t (S i)) = true) ->
  strictly_increasing n t.
Proof.
  intros Hstep i j Hij. induction j as [|j IH]; [lia|].
  intros Hj. destruct (Nat.eq_dec i j) as [->|Hne].
  - now apply Hstep.
  - eapply nlt_trans; [apply IH; lia | now apply Hstep].
Qed.

(** [monotonic] accepts strictly increasing times, and among finite times
    those only. *)
Lemma monotonic_strictly_increasing (n : nat) (t : list (num R)) :
  n <= length t ->
  (strictly_increasing n t -> pwflat.monotonic n t = true) /\
  ((forall i, i < n -> finite (at_ t i)) ->
   pwflat.monotonic n t = true -> strictly_increasing n t).
Proof.
  intros Hn. unfold pwflat.monotonic.
  assert (Hlen : length (firstn n t) = n) by now apply firstn_length_le.
  split.
  - intros Hinc. apply Nat.eqb_eq, adjacent_find_end.
    intros i Hi. rewrite Hlen in Hi. rewrite !at_firstn by lia.
    pose proof (Hinc i (S i) ltac:(lia) Hi) as Hlt.
    destruct (nlt_finite _ _ Hlt) as [Hfi Hfs].
    unfold nge. now rewrite (nle_nlt Hfs Hfi), Hlt.
  - intros Hfin Hmono. apply Nat.eqb_eq in Hmono.
    apply increasing_steps. intros i Hi.
    pose proof (proj1 (adjacent_find_end nge (firstn n t)) Hmono i
                  ltac:(rewrite Hlen; exact Hi)) as Hge.
    rewrite !at_firstn in Hge by lia. unfold nge in Hge.
    rewrite (nle_nlt (Hfin (S i) Hi) (Hfin i ltac:(lia))) in Hge.
    now apply negb_false_iff in Hge.
Qed.
End Monotonic.

(** ** The assertions of the source *)

(** [test_pwflat_monotonic] *)
Example monotonic_test :
  pwflat.monotonic 0 ([] : list (num Qc)) = true /\
  pwflat.monotonic 1 [qz 1] = true /\
  pwflat.monotonic 2 [qz 1; qz 2] = true /\
  pwflat.monotonic 2 [qz 1; qz 1] = false.
Proof. repeat split; vm_compute; reflexivity. Qed.

(** Not-a-number is [>=] nothing, so [monotonic] lets it pass between
    times that decrease. *)
Example monotonic_with_nan :
  pwflat.monotonic 3 [qz 1; NaN; qz 0] = true /\
  ~ strictly_increasing 3 [qz 1; NaN; qz 0].
Proof.
  split; [vm_compute; reflexivity|].
  intros H. specialize (H 0 1 ltac:(lia) ltac:(lia)). discriminate.
Qed.

(** [test_pwflat_value] *)
Example value_test :
  pwflat.value (qz 0) 0 scenario_t scenario_f NaN = NaN /\
  pwflat.value (qz 0) 0 scenario_t scenario_f (qz 5) = qz 5 /\
  pwflat.value (q (-1) 10) 3 scenario_t scenario_f NaN = NaN /\
  pwflat.value (qz 0) 3 scenario_t scenario_f NaN = qz 2 /\
  pwflat.value (q 1 10) 3 scenario_t scenario_f NaN = qz 2 /\
  pwflat.value (qz 1) 3 scenario_t scenario_f NaN = qz 2 /\
  pwflat.value (q 11 10) 3 scenario_t scenario_f NaN = qz 3 /\
  pwflat.value (q 29 10) 3 scenario_t scenario_f NaN = qz 4 /\
  pwflat.value (qz 3) 3 scenario_t scenario_f NaN = qz 4 /\
  pwflat.value (q 31 10) 3 scenario_t scenario_f NaN = NaN.
Proof. repeat split; by_evaluation. Qed.

(** [pwflat_integral_test], the assertions not among the scenarios. *)
Example integral_test :
  pwflat.integral (qz 0) 0 scenario_t scenario_f NaN = qz 0 /\
  pwflat.integral (qz 2) 0 scenario_t scenario_f (qz 5) = qz 10 /\
  pwflat.integral (q (-1) 10) 3 scenario_t scenario_f NaN = NaN.
Proof. repeat split; by_evaluation. Qed.

(** [constant::test] and [curve_operator_test] *)
Example constant_test :
  let c := curve.constant_base {| curve.c_f := qz 1 |} in
  curve.value c (qz 0) = qz 1 /\ curve.integral c (qz 0) (qz 0) = qz 0.
Proof. split; by_evaluation. Qed.

Example curve_operator_test :
  let c1 := curve.constant_base {| curve.c_f := qz 1 |} in
  let c2 := curve.constant_base {| curve.c_f := qz 3 |} in
  curve.value (curve.plus_base {| curve.p_f := c1; curve.p_g := c2 |}) (qz 0) = qz 4.
Proof. by_evaluation. Qed.

(** The two objects of [curve_operator_test], on [double]s: [a1 = c1 + c2]
    has [value(0) = 4]; [a2 = c1 + f] reads its member [g], which was
    bound to a temporary, so the test's [a2.value(0) == 3.0] is evaluated
    on a destroyed object. *)
Example curve_operator_test_objects :
  let c1 := curve.constant_base {| curve.c_f := b64 1 |} in
  let c2 := curve.constant_base {| curve.c_f := b64 3 |} in
  curve.plus_object_value (curve.plus_ctor c1 c2) (b64 0) = Returned (b64 4) /\
  curve.plus_object_value (curve.plus_ctor_scalar c1 (b64 2)) (b64 0) = Undefined.
Proof. split; vm_compute; reflexivity. Qed.

(** * Further properties *)

(** ** The scalar types satisfy the further laws *)

Lemma Qc_ltb_false (a b : Qc) : ltb a b = false <-> (b <= a)%Qc.
Proof.
  split.
  - intros H. apply Qcnot_lt_le. intros Hlt. apply Qc_ltb_lt in Hlt. congruence.
  - intros H. destruct (ltb a b) eqn:E; [|reflexivity].
    apply Qc_ltb_lt in E. exfalso. exact (Qcle_not_lt _ _ H E).
Qed.

#[export] Instance Qc_DivisionLaws : DivisionLaws Qc.
Proof.
  split. intros a b Hb. cbn in *. apply test_field.
  intros ->. unfold Qc_eq_bool in Hb.
  destruct (Qc_eq_dec (Q2Qc 0) (Q2Qc 0)); congruence.
Qed.

#[export] Instance Qc_OrderLaws : OrderLaws Qc.
Proof.
  split.
  - intros a b Ha Hb. apply Qc_ltb_false in Ha, Hb. apply Qc_ltb_false.
    cbn [zero mul Qc_Scalar] in *.
    replace (Q2Qc 0) with (Q2Qc 0 * b)%Qc by ring.
    now apply Qcmult_le_compat_r.
  - intros a b H. apply Qc_ltb_false in H. apply Qc_ltb_false.
    cbn [zero sub Qc_Scalar]. now apply Qcle_minus_iff in H.
Qed.

#[export] Instance R_DivisionLaws : DivisionLaws R.
Proof.
  split. intros a b Hb. cbn in *.
  destruct (Req_dec_T b 0); [discriminate|]. now field.
Qed.

#[export] Instance R_ExponentialSum : ExponentialSum R.
Proof. split. exact exp_plus. Qed.

#[export] Instance R_OrderLaws : OrderLaws R.
Proof.
  split; intros a b; cbn.
  - destruct (Rlt_dec a 0), (Rlt_dec b 0), (Rlt_dec (a * b) 0);
      try discriminate; try reflexivity. intros _ _. exfalso.
    assert (0 <= a * b)%R by (apply Rmult_le_pos; lra). lra.
  - destruct (Rlt_dec a b), (Rlt_dec (a - b) 0);
      try discriminate; try reflexivity. lra.
Qed.

(** ** What the kernel reads *)

Section Locality.
Context {R : Type} {Sc : Scalar R}.

(** The bisection reads the positions of its range only. *)
Lemma partition_point_local (p : num R -> bool) (a a' : list (num R)) (fuel : nat) :
  forall first len,
    (forall i, first <= i -> i < first + len -> at_ a' i = at_ a i) ->
    partition_point_loop fuel p a' first len = partition_point_loop fuel p a first len.
Proof.
  induction fuel as [|k IH]; intros first len Hsame; cbn [partition_point_loop];
    [reflexivity|].
  destruct (Nat.eqb_spec len 0) as [->|Hlen]; [reflexivity|].
  pose proof (div2_lt Hlen) as Hh.
  set (half := Nat.div2 len) in *. clearbody half.
  rewrite (Hsame (first + half)) by lia.
  destruct (p (at_ a (first + half))); apply IH; intros i Hi1 Hi2; apply Hsame; lia.
Qed.

(** The loop of [integral] reads the first [n] times and rates only. *)
Lemma integral_loop_local (u : num R) (n : nat) (t f t' f' : list (num R)) (fuel : nat) :
  (forall i, i < n -> at_ t' i = at_ t i) ->
  (forall i, i < n -> at_ f' i = at_ f i) ->
  forall i I_ t_,
    pwflat.integral_loop fuel u n t' f' i I_ t_ = pwflat.integral_loop fuel u n t f i I_ t_.
Proof.
  intros Ht Hf. induction fuel as [|k IH]; intros i I_ t_; cbn [pwflat.integral_loop];
    [reflexivity|].
  destruct (Nat.ltb_spec i n) as [Hi|Hi]; cbn [andb]; [|reflexivity].
  rewrite (Ht i Hi), (Hf i Hi), IH. reflexivity.
Qed.

(** The loop of [integral] stops at a position that is at most [n]. *)
Lemma integral_loop_bound (u : num R) (n : nat) (t f : list (num R)) (fuel : nat) :
  forall i I_ t_, i <= n ->
    fst (fst (pwflat.integral_loop fuel u n t f i I_ t_)) <= n.
Proof.
  induction fuel as [|k IH]; intros i I_ t_ Hi; cbn [pwflat.integral_loop]; [exact Hi|].
  destruct (Nat.ltb_spec i n) as [Hlt|Hge]; cbn [andb]; [|exact Hi].
  destruct (nle (at_ t i) u); [apply IH; lia | exact Hi].
Qed.

Lemma value_reads_first_n (u : num R) (n : nat) (t f t' f' : list (num R)) (_f : num R) :
  (forall i, i < n -> at_ t' i = at_ t i) ->
  (forall i, i < n -> at_ f' i = at_ f i) ->
  pwflat.value u n t' f' _f = pwflat.value u n t f _f.
Proof.
  intros Ht Hf.
  unfold pwflat.value, lower_bound. rewrite !lower_bound_partition.
  rewrite (@partition_point_local (fun x => nlt x u) t t' n 0 n)
    by (intros i _ Hi; apply Ht; exact Hi).
  pose proof (partition_point_range (fun x => nlt x u) t n 0 n) as Hr.
  set (r := partition_point_loop n (fun x => nlt x u) t 0 n) in *.
  destruct (nlt u n0); [reflexivity|].
  destruct (n =? 0); [reflexivity|].
  destruct (Nat.eqb_spec r n) as [_|Hne]; [reflexivity|].
  apply Hf. lia.
Qed.

Lemma integral_reads_first_n (u : num R) (n : nat) (t f t' f' : list (num R)) (_f : num R) :
  (forall i, i < n -> at_ t' i = at_ t i) ->
  (forall i, i < n -> at_ f' i = at_ f i) ->
  pwflat.integral u n t' f' _f = pwflat.integral u n t f _f.
Proof.
  intros Ht Hf. unfold pwflat.integral.
  rewrite (@integral_loop_local u n t f t' f' n Ht Hf).
  pose proof (@integral_loop_bound u n t f n 0 n0 n0 (Nat.le_0_l n)) as Hk.
  destruct (pwflat.integral_loop n u n t f 0 n0 n0) as [[k I_] t_]. cbn in Hk.
  destruct (nlt u n0); [reflexivity|].
  destruct (neq u n0); [reflexivity|].
  destruct (n =? 0); [reflexivity|].
  destruct (ngt u t_); [|reflexivity].
  destruct (Nat.eqb_spec k n) as [_|Hne]; [reflexivity|].
  rewrite (Hf k) by lia. reflexivity.
Qed.

(** X1.  [value] and [integral] read the times [t[0..n-1]] and the rates
    [f[0..n-1]] and nothing else of the two arrays, whatever the order of
    the times: arrays that agree on these positions give the same results. *)
Theorem kernel_reads_first_n (u : num R) (n : nat) (t f t' f' : list (num R)) (_f : num R) :
  (forall i, i < n -> at_ t' i = at_ t i) ->
  (forall i, i < n -> at_ f' i = at_ f i) ->
  pwflat.value u n t' f' _f = pwflat.value u n t f _f /\
  pwflat.integral u n t' f' _f = pwflat.integral u n t f _f.
Proof.
  intros Ht Hf. split.
  - now apply value_reads_first_n.
  - now apply integral_reads_first_n.
Qed.
End Locality.

Lemma kernel_reads_first_n_witness :
  pwflat.value (qz 2) 2 [qz 1; qz 2; qz 0] [qz 5; qz 6; NaN] NaN
  = pwflat.value (qz 2) 2 [qz 1; qz 2] [qz 5; qz 6] NaN.
Proof.
  refine (proj1 (@kernel_reads_first_n Qc _ (qz 2) 2 [qz 1; qz 2] [qz 5; qz 6]
                   [qz 1; qz 2; qz 0] [qz 5; qz 6; NaN] NaN _ _));
    intros i Hi; destruct i as [|[|i]]; try reflexivity; lia.
Defined.

(** ** The integral grows at the rate [value] gives *)

Section Slope.
Context {R : Type} {Sc : Scalar R} {L : ScalarLaws R}.

Lemma positive_time (u : num R) :
  nlt n0 u = true -> finite u /\ nlt u n0 = false /\ neq u n0 = false.
Proof.
  destruct u as [|y]; cbn; [discriminate|]. intros H.
  split; [eexists; reflexivity|]. split; [now apply ltb_asym|].
  destruct (eqb y zero) eqn:E; [|reflexivity].
  apply eqb_eq in E. subst. rewrite ltb_irrefl in H. discriminate.
Qed.

(** The times before the first pillar at or after [u] are below [u]. *)
Lemma before_first_pillar (u : num R) (n : nat) (t : list (num R)) (k : nat) :
  strictly_increasing n t -> first_pillar_from u n t k ->
  forall j, j < k -> nlt (at_ t j) u = true.
Proof.
  intros Hinc (Hk & Hge & Hfirst) j Hj.
  destruct (nle_finite _ _ Hge) as [Hfu _].
  destruct (nlt_finite _ _ (Hinc j k Hj Hk)) as [Hfj _].
  pose proof (Hfirst j Hj) as Hn. unfold nge in Hn.
  rewrite (nle_nlt Hfu Hfj) in Hn. now apply negb_false_iff in Hn.
Qed.

Lemma integral_before_pillar (u : num R) (n : nat) (t f : list (num R)) (_f : num R) (k : nat) :
  strictly_increasing n t -> nlt n0 u = true -> first_pillar_from u n t k ->
  pwflat.integral u n t f _f
  = nadd (full_intervals k t f) (nmul (at_ f k) (nsub u (start_of t k))).
Proof.
  intros Hinc Hpos Hfirst.
  destruct (positive_time u Hpos) as (Hfu & Hu & Hz).
  pose proof (before_first_pillar Hinc Hfirst) as Hbelow.
  destruct Hfirst as (Hk & Hge & _).
  rewrite integral_is_antiderivative by (try assumption; lia).
  unfold antiderivative.
  destruct (nle_finite _ _ Hge) as [_ Hfk].
  pose proof (nle_true_nlt _ _ Hge) as Hku.
  destruct (nlt u (at_ t k)) eqn:Huk.
  - (* u is before the pillar k *)
    rewrite (@intervals_below_stop R Sc L u n t k Hinc); try lia.
    + destruct (Nat.eqb_spec k n); [lia|].
      assert (Hgt : ngt u (start_of t k) = true).
      { destruct k as [|j]; [exact Hpos | apply Hbelow; lia]. }
      now rewrite Hgt.
    + intros j Hj. now apply nlt_nle, Hbelow.
    + intros _. rewrite (nle_nlt Hfk Hfu), Huk. reflexivity.
  - (* u is the pillar k *)
    assert (Heq : at_ t k = u).
    { destruct Hfk as [x Hx], Hfu as [y Hy]. rewrite Hx, Hy in *. cbn in Hku, Huk.
      f_equal. now apply ltb_total. }
    rewrite (@intervals_below_stop R Sc L u n t (S k) Hinc); try lia.
    + cbn [start_of]. unfold ngt. rewrite Heq, nlt_irrefl.
      cbn [full_intervals]. now rewrite Heq.
    + intros j Hj. destruct (Nat.eq_dec j k) as [->|Hne].
      * rewrite Heq. destruct Hfu as [y ->]. cbn. now rewrite ltb_irrefl.
      * apply nlt_nle, Hbelow. lia.
    + intros Hlt. pose proof (Hinc k (S k) ltac:(lia) Hlt) as Hnext.
      destruct (nlt_finite _ _ Hnext) as [_ Hfn].
      rewrite (nle_nlt Hfn Hfu), <- Heq, Hnext. reflexivity.
Qed.

Lemma integral_past_pillars (u : num R) (n : nat) (t f : list (num R)) (_f : num R) :
  strictly_increasing n t -> nlt n0 u = true -> n <> 0 -> exceeds_all u n t ->
  pwflat.integral u n t f _f
  = nadd (full_intervals n t f) (nmul _f (nsub u (start_of t n))).
Proof.
  intros Hinc Hpos Hn Hall.
  destruct (positive_time u Hpos) as (Hfu & Hu & Hz).
  rewrite integral_is_antiderivative by assumption.
  unfold antiderivative.
  rewrite (@intervals_below_stop R Sc L u n t n Hinc); try lia.
  - rewrite Nat.eqb_refl.
    assert (Hgt : ngt u (start_of t n) = true).
    { destruct n as [|m]; [lia | apply Hall; lia]. }
    now rewrite Hgt.
  - intros j Hj. now apply nlt_nle, Hall.
Qed.

(** X2.  On strictly increasing times and for [u > 0], [integral(u)] is
    the sum over the intervals that end before [u] plus [value(u)] times
    the time since the last of them: with [k] the first pillar at or after
    [u] (or [n] past all pillars),
    [integral(u) = sum_{i<k} f[i] (t[i] - t[i-1]) + value(u) (u - t[k-1])]. *)
Theorem integral_grows_at_value (u : num R) (n : nat) (t f : list (num R)) (_f : num R) :
  strictly_increasing n t -> nlt n0 u = true ->
  (forall k, first_pillar_from u n t k ->
     pwflat.integral u n t f _f
     = nadd (full_intervals k t f)
            (nmul (pwflat.value u n t f _f) (nsub u (start_of t k)))) /\
  (n <> 0 -> exceeds_all u n t ->
     pwflat.integral u n t f _f
     = nadd (full_intervals n t f)
            (nmul (pwflat.value u n t f _f) (nsub u (start_of t n)))).
Proof.
  intros Hinc Hpos. destruct (positive_time u Hpos) as (_ & Hu & _). split.
  - intros k Hk. rewrite (value_at_first_pillar f _f Hinc Hu Hk).
    now apply integral_before_pillar.
  - intros Hn Hall. rewrite (value_past_pillars f _f Hinc Hu Hall).
    now apply integral_past_pillars.
Qed.
End Slope.

Lemma integral_grows_at_value_witness :
  pwflat.integral (q 3 2) 3 scenario_t scenario_f NaN
  = nadd (full_intervals 1 scenario_t scenario_f)
         (nmul (pwflat.value (q 3 2) 3 scenario_t scenario_f NaN)
               (nsub (q 3 2) (start_of scenario_t 1))).
Proof.
  refine (proj1 (@integral_grows_at_value Qc _ _ (q 3 2) 3 scenario_t scenario_f NaN
                   scenario_t_increasing eq_refl) 1 _).
  split; [lia|]. split; [reflexivity|].
  intros j Hj. assert (j = 0) as -> by lia. reflexivity.
Defined.

(** ** The extrapolation value *)

Section Extrapolation.
Context {R : Type} {Sc : Scalar R} {L : ScalarLaws R}.

Lemma value_within_pillars (u : num R) (n : nat) (t f : list (num R)) (_f _f' : num R) :
  strictly_increasing n t -> n <> 0 -> nle u (at_ t (n - 1)) = true ->
  pwflat.value u n t f _f = pwflat.value u n t f _f'.
Proof.
  intros Hinc Hn Hlast. unfold pwflat.value.
  destruct (nlt u n0); [reflexivity|].
  destruct (Nat.eqb_spec n 0); [contradiction|].
  destruct (lower_bound_spec u Hinc) as (Hr & Hbelow & _).
  set (r := lower_bound t 0 n u) in *.
  destruct (Nat.eqb_spec r n) as [Heq|_]; [exfalso | reflexivity].
  pose proof (Hbelow (n - 1) ltac:(lia)) as Hlt.
  apply nle_true_nlt in Hlast. congruence.
Qed.

Lemma integral_within_pillars (u : num R) (n : nat) (t f : list (num R)) (_f _f' : num R) :
  n <> 0 -> nle u (at_ t (n - 1)) = true ->
  pwflat.integral u n t f _f = pwflat.integral u n t f _f'.
Proof.
  intros Hn Hlast. unfold pwflat.integral.
  destruct (nlt u n0); [reflexivity|].
  destruct (neq u n0); [reflexivity|].
  destruct (Nat.eqb_spec n 0); [contradiction|].
  destruct (@integral_loop_spec R Sc u n t f n 0) as (k & Heq & _ & Hk & Hbelow & _);
    try lia.
  cbn [full_intervals start_of] in Heq. rewrite Heq.
  destruct (Nat.eqb_spec k n) as [->|_]; [|reflexivity].
  (* every pillar was passed: u is the last pillar, no time remains *)
  pose proof (Hbelow (n - 1) ltac:(lia) ltac:(lia)) as Hle.
  replace (start_of t n) with (at_ t (n - 1))
    by (destruct n; [contradiction | cbn; now rewrite Nat.sub_0_r]).
  assert (Hgt : ngt u (at_ t (n - 1)) = false) by now apply nle_true_nlt.
  now rewrite Hgt.
Qed.

(** X3.  The extrapolation value counts past the last pillar only.  On
    strictly increasing times with [u <= t[n-1]], [value(u)] and
    [integral(u)] are the same for every [_f]; so after
    [extrapolate(e)] a piecewise-flat curve returns [e] from
    [extrapolate()], keeps its pillars and its [back()], and has the same
    [integral(u, t0)] for [u] and [t0] up to the last pillar. *)
Theorem extrapolation_past_last_pillar (p : curve.pwflat) (e u t0 : num R) :
  let n := length (curve.t p) in
  let p' := curve.pwflat_set_extrapolate p e in
  strictly_increasing n (curve.t p) -> n <> 0 ->
  nle u (at_ (curve.t p) (n - 1)) = true ->
  nle t0 (at_ (curve.t p) (n - 1)) = true ->
  pwflat.value u n (curve.t p) (curve.f p) e
  = pwflat.value u n (curve.t p) (curve.f p) (curve._f p) /\
  pwflat.integral u n (curve.t p) (curve.f p) e
  = pwflat.integral u n (curve.t p) (curve.f p) (curve._f p) /\
  curve.integral (curve.pwflat_base p') u t0 = curve.integral (curve.pwflat_base p) u t0 /\
  curve.extrapolate (curve.pwflat_base p') = e /\
  curve.t p' = curve.t p /\ curve.f p' = curve.f p /\
  curve.pwflat_back p' = curve.pwflat_back p.
Proof.
  intros n p' Hinc Hn Hu Ht0.
  split; [now apply value_within_pillars|].
  split; [now apply integral_within_pillars|].
  split; [|repeat split].
  cbn. unfold curve.pwflat_integral. cbn [curve.t curve.f curve._f]. fold n.
  f_equal; now apply integral_within_pillars.
Qed.
End Extrapolation.

Lemma extrapolation_past_last_pillar_witness :
  let p := {| curve.t := scenario_t; curve.f := scenario_f; curve._f := NaN |} in
  curve.integral (curve.pwflat_base (curve.pwflat_set_extrapolate p (qz 5))) (qz 3) (qz 1)
  = curve.integral (curve.pwflat_base p) (qz 3) (qz 1).
Proof.
  intros p.
  exact (proj1 (proj2 (proj2
           (@extrapolation_past_last_pillar Qc _ _ p (qz 5) (qz 3) (qz 1)
              scenario_t_increasing (fun H : 3 = 0 => O_S 2 (eq_sym H)) eq_refl eq_refl)))).
Defined.

(** ** Integrals between two times, and sums of curves *)

Section CurveAlgebra.
Context {R : Type} {Sc : Scalar R} {L : ScalarLaws R}.

Add Ring scalar_ring_algebra : (@scalar_ring R Sc L).

Lemma nadd_comm (a b : num R) : nadd a b = nadd b a.
Proof. destruct a, b; cbn; try reflexivity. f_equal. ring. Qed.

Lemma chasles (a b c : num R) :
  finite b -> nadd (nsub a b) (nsub b c) = nsub a c.
Proof. intros [y ->]. destruct a, c; cbn; try reflexivity. f_equal. ring. Qed.

Lemma nsub_swap (a b : num R) : nsub b a = nneg (nsub a b).
Proof. destruct a, b; cbn; try reflexivity. f_equal. ring. Qed.

Lemma eqb_zero_false (y : R) : ltb zero y = true -> eqb y zero = false.
Proof.
  intros H. destruct (eqb y zero) eqn:E; [|reflexivity].
  apply eqb_eq in E. subst. rewrite ltb_irrefl in H. discriminate.
Qed.

(** The kernel's [integral] without pillars: 0 at 0, else [u * _f]. *)
Lemma integral_pillarless (y x : R) (t f : list (num R)) :
  ltb y zero = false ->
  pwflat.integral (Fin y) 0 t f (Fin x) = Fin (mul x y).
Proof.
  intros Hy. unfold pwflat.integral. cbn. rewrite Hy.
  destruct (eqb y zero) eqn:E; cbn.
  - apply eqb_eq in E. subst. unfold n0. f_equal. ring.
  - f_equal. ring.
Qed.

(** X4.  A piecewise-flat curve without pillars and with a finite
    extrapolation [c] is the constant curve [c] on times that are not
    negative: the kernel's [value] is [c] and [integral(u, t0)] is
    [c * (u - t0)].  At a negative time the kernel's [value] is
    not-a-number, the constant curve's is [c]. *)
Theorem pillarless_curve_is_constant (c u t0 : num R) (t f : list (num R)) :
  finite c -> finite u -> finite t0 ->
  nlt u n0 = false -> nlt t0 n0 = false ->
  let k := curve.constant_base {| curve.c_f := c |} in
  pwflat.value u 0 t f c = curve.value k u /\
  curve.integral (curve.pwflat_base (curve.pwflat_flat c)) u t0 = curve.integral k u t0 /\
  (forall v, nlt v n0 = true ->
     pwflat.value v 0 t f c = NaN /\ curve.value k v = c).
Proof.
  intros [x ->] [y ->] [z ->] Hu Ht0 k. cbn in Hu, Ht0. repeat split.
  - unfold pwflat.value. cbn. now rewrite Hu.
  - cbn. unfold curve.pwflat_integral, curve.constant_integral.
    cbn [curve.t curve.f curve._f curve.pwflat_flat curve.c_f length].
    rewrite !integral_pillarless by assumption. cbn. f_equal. ring.
  - unfold pwflat.value. now rewrite H.
Qed.

(** X5, in exact arithmetic.  The integrals between times add up,
    [integral(u, t) + integral(t, s) = integral(u, s)]: on a constant curve
    when its rate and the middle time [t] are numbers, on a piecewise-flat
    curve when the kernel's integral at [t] is a number.  On both,
    swapping the bounds changes the sign. *)
Theorem integral_between_times_adds_up (u t s : num R) :
  (forall c : curve.constant,
     finite (curve.c_f c) -> finite t ->
     nadd (curve.integral (curve.constant_base c) u t)
          (curve.integral (curve.constant_base c) t s)
     = curve.integral (curve.constant_base c) u s) /\
  (forall c : curve.constant,
     curve.integral (curve.constant_base c) t u
     = nneg (curve.integral (curve.constant_base c) u t)) /\
  (forall p : curve.pwflat,
     finite (pwflat.integral t (length (curve.t p)) (curve.t p) (curve.f p) (curve._f p)) ->
     nadd (curve.integral (curve.pwflat_base p) u t)
          (curve.integral (curve.pwflat_base p) t s)
     = curve.integral (curve.pwflat_base p) u s) /\
  (forall p : curve.pwflat,
     curve.integral (curve.pwflat_base p) t u
     = nneg (curve.integral (curve.pwflat_base p) u t)).
Proof.
  repeat split.
  - intros [c] [x Hx] [y ->]. cbn in *. subst c. unfold curve.constant_integral. cbn.
    destruct u, s; cbn; try reflexivity. f_equal. ring.
  - intros [c]. cbn. unfold curve.constant_integral. cbn.
    destruct c, u, t; cbn; try reflexivity. f_equal. ring.
  - intros p Hfin. cbn. unfold curve.pwflat_integral. now apply chasles.
  - intros p. cbn. unfold curve.pwflat_integral. apply nsub_swap.
Qed.

(** X6.  The sum of two curves does not depend on the order of the
    operands: [f + g] and [g + f] have the same [value], [integral] and
    [extrapolate()]. *)
Theorem plus_commutes (f g : curve.base) (u t : num R) :
  let fg := curve.plus_base {| curve.p_f := f; curve.p_g := g |} in
  let gf := curve.plus_base {| curve.p_f := g; curve.p_g := f |} in
  curve.value fg u = curve.value gf u /\
  curve.integral fg u t = curve.integral gf u t /\
  curve.extrapolate fg = curve.extrapolate gf.
Proof. repeat split; cbn; apply nadd_comm. Qed.

Context {E : Exponential R} {ES : ExponentialSum R}.

Lemma nexp_sum (a b : num R) :
  nexp (nneg (nadd a b)) = nmul (nexp (nneg a)) (nexp (nneg b)).
Proof.
  destruct a as [|x], b as [|y]; cbn; try reflexivity.
  rewrite <- expo_add. do 2 f_equal. ring.
Qed.

(** X7.  The discount of a sum of curves is the product of the operands'
    discounts from 0, whatever the lower bound [t] is:
    [(f + g).discount(u, t) = f.discount(u, 0) * g.discount(u, 0)]. *)
Theorem plus_discount_is_product (f g : curve.base) (u t : num R) :
  curve.discount (curve.plus_base {| curve.p_f := f; curve.p_g := g |}) u t
  = nmul (curve.discount f u n0) (curve.discount g u n0).
Proof. unfold curve.discount. cbn. unfold curve.plus_integral. apply nexp_sum. Qed.
End CurveAlgebra.

Ltac is_finite := eexists; reflexivity.

Lemma pillarless_curve_is_constant_witness :
  curve.integral (curve.pwflat_base (curve.pwflat_flat (qz 3))) (qz 5) (qz 0)
  = curve.integral (curve.constant_base {| curve.c_f := qz 3 |}) (qz 5) (qz 0).
Proof.
  refine (proj1 (proj2 (@pillarless_curve_is_constant Qc _ _ (qz 3) (qz 5) (qz 0) [] []
                          _ _ _ eq_refl eq_refl))); is_finite.
Defined.

Lemma integral_between_times_adds_up_witness :
  let c := {| curve.c_f := qz 2 |} in
  nadd (curve.integral (curve.constant_base c) (qz 5) (qz 3))
       (curve.integral (curve.constant_base c) (qz 3) (qz 1))
  = curve.integral (curve.constant_base c) (qz 5) (qz 1).
Proof.
  intros c.
  refine (proj1 (@integral_between_times_adds_up Qc _ _ (qz 5) (qz 3) (qz 1)) c _ _);
    is_finite.
Defined.

Lemma plus_commutes_witness :
  let f := curve.constant_base {| curve.c_f := qz 1 |} in
  let g := curve.pwflat_base {| curve.t := scenario_t; curve.f := scenario_f; curve._f := NaN |} in
  curve.integral (curve.plus_base {| curve.p_f := f; curve.p_g := g |}) (qz 2) (qz 0)
  = curve.integral (curve.plus_base {| curve.p_f := g; curve.p_g := f |}) (qz 2) (qz 0).
Proof.
  intros f g.
  exact (proj1 (proj2 (@plus_commutes Qc _ Qc_ScalarLaws f g (qz 2) (qz 0)))).
Defined.

Lemma plus_discount_is_product_witness :
  let f := curve.constant_base {| curve.c_f := Fin 1%R |} in
  let g := curve.constant_base {| curve.c_f := Fin 3%R |} in
  curve.discount (curve.plus_base {| curve.p_f := f; curve.p_g := g |}) (Fin 2%R) (Fin 1%R)
  = nmul (curve.discount f (Fin 2%R) n0) (curve.discount g (Fin 2%R) n0).
Proof.
  intros f g.
  exact (@plus_discount_is_product R _ R_ScalarLaws _ R_ExponentialSum f g (Fin 2%R) (Fin 1%R)).
Defined.

(** ** More on [translate] *)

Section TranslateMore.
Context {R : Type} {Sc : Scalar R} {L : ScalarLaws R}.

Add Ring scalar_ring_translate : (@scalar_ring R Sc L).

Lemma nsub_zero (x : num R) : nsub x n0 = x.
Proof. destruct x; cbn; [reflexivity|]. f_equal. ring. Qed.

Lemma nsub_nsub (x u v : num R) : nsub (nsub x u) v = nsub x (nadd u v).
Proof. destruct x, u, v; cbn; try reflexivity. f_equal. ring. Qed.

Lemma transform_id (g : num R -> num R) (t n : nat) (m : store R) :
  t + n <= length m -> (forall x, g x = x) -> transform g t n m = m.
Proof.
  intros Hs Hg. apply store_ext.
  - now apply length_transform.
  - intros i _. rewrite at_transform by exact Hs.
    destruct ((t <=? i) && (i <? t + n)); [apply Hg | reflexivity].
Qed.

Lemma transform_transform (g h : num R -> num R) (t n : nat) (m : store R) :
  t + n <= length m ->
  transform h t n (transform g t n m) = transform (fun x => h (g x)) t n m.
Proof.
  intros Hs.
  assert (Hlen : length (transform g t n m) = length m) by now apply length_transform.
  apply store_ext.
  - rewrite !length_transform; lia.
  - intros i _. rewrite !at_transform by lia.
    destruct ((t <=? i) && (i <? t + n)); reflexivity.
Qed.

Lemma transform_ext (g h : num R -> num R) (t n : nat) (m : store R) :
  (forall x, g x = h x) -> transform g t n m = transform h t n m.
Proof.
  intros Hgh. unfold transform. do 2 f_equal. apply map_ext. exact Hgh.
Qed.

(** X8.  Shifts compose and the shift by 0 does nothing: over one span,
    [translate(u, t)] followed by [translate(v, t)] leaves the array and
    returns the span that [translate(u + v, t)] does, and [translate(0, t)]
    leaves the array as it is. *)
Theorem translate_composes (u v : num R) (s : span) (m : store R) :
  data s + size s <= length m ->
  pwflat.translate_span v s (fst (pwflat.translate_span u s m))
  = pwflat.translate_span (nadd u v) s m /\
  fst (pwflat.translate_span n0 s m) = m.
Proof.
  intros Hs. split.
  - unfold pwflat.translate_span, pwflat.translate. cbn [fst].
    rewrite transform_transform by exact Hs.
    rewrite (transform_ext _ (fun ti => nsub ti (nadd u v)))
      by (intros x; apply nsub_nsub).
    reflexivity.
  - cbn. apply transform_id; [exact Hs | apply nsub_zero].
Qed.

Lemma strictly_increasing_shift (u : num R) (s : span) (m : store R) :
  finite u -> data s + size s <= length m ->
  strictly_increasing (size s) (elements s m) ->
  strictly_increasing (size s)
    (elements s (transform (fun ti => nsub ti u) (data s) (size s) m)).
Proof.
  intros Hu Hs Hinc i j Hij Hj.
  assert (Hlen : length (transform (fun ti => nsub ti u) (data s) (size s) m) = length m)
    by now apply length_transform.
  rewrite !at_elements by lia. rewrite !at_transform by exact Hs.
  destruct (Nat.leb_spec (data s) (data s + i)), (Nat.ltb_spec (data s + i) (data s + size s)),
    (Nat.leb_spec (data s) (data s + j)), (Nat.ltb_spec (data s + j) (data s + size s));
    try lia; cbn [andb].
  apply nlt_nsub_compat; [exact Hu|].
  specialize (Hinc i j Hij Hj). now rewrite !at_elements in Hinc by lia.
Qed.

(** X9, in exact arithmetic.  [translate] keeps pillar times in order.
    For a shift that is a number and strictly increasing times, the
    shifted times of the span are strictly increasing, and the span
    returned holds strictly increasing times that are all above 0; when
    the first shifted time is above 0 it is the whole span, and
    translating it back by [-u] restores the array. *)
Theorem translate_keeps_order (u : num R) (s : span) (m : store R) :
  finite u -> data s + size s <= length m ->
  strictly_increasing (size s) (elements s m) ->
  let m1 := fst (pwflat.translate_span u s m) in
  let s1 := snd (pwflat.translate_span u s m) in
  strictly_increasing (size s) (elements s m1) /\
  strictly_increasing (size s1) (elements s1 m1) /\
  (forall i, i < size s1 -> ngt (at_ (elements s1 m1) i) n0 = true) /\
  (size s <> 0 -> ngt (nsub (at_ m (data s)) u) n0 = true ->
   s1 = s /\ fst (pwflat.translate_span (nneg u) s1 m1) = m).
Proof.
  intros Hu Hs Hinc m1 s1.
  destruct (translate_span_shape u s m) as (Hk & Hdata & Hsize & Hm1).
  fold s1 in Hk, Hdata, Hsize. fold m1 in Hm1.
  destruct (translate_keeps_positive u s m Hs Hinc) as [Hneg Hpos].
  fold m1 s1 in Hneg, Hpos.
  assert (Hinc1 : strictly_increasing (size s) (elements s m1))
    by (rewrite Hm1; now apply strictly_increasing_shift).
  split; [exact Hinc1|]. split; [|split].
  - intros i j Hij Hj. rewrite !at_elements by lia.
    specialize (Hinc1 (size s - size s1 + i) (size s - size s1 + j)
                  ltac:(lia) ltac:(lia)).
    rewrite !at_elements in Hinc1 by lia.
    replace (data s1 + i) with (data s + (size s - size s1 + i)) by lia.
    replace (data s1 + j) with (data s + (size s - size s1 + j)) by lia.
    exact Hinc1.
  - intros i Hi. rewrite at_elements by exact Hi. apply Hpos; lia.
  - intros Hne Hfirst.
    assert (Hd : data s1 = data s).
    { destruct (Nat.eq_dec (data s1) (data s)) as [He|Hn]; [exact He | exfalso].
      pose proof (Hneg (data s) (Nat.le_refl _) ltac:(lia)) as H0.
      rewrite Hm1, at_transform in H0 by exact Hs.
      destruct (Nat.leb_spec (data s) (data s)), (Nat.ltb_spec (data s) (data s + size s));
        try lia. cbn [andb] in H0. congruence. }
    assert (Hs1 : s1 = s).
    { destruct s1 as [d1 z1], s as [d z]. cbn in *. f_equal; lia. }
    split; [exact Hs1|].
    pose proof (translate_back_store s m Hu Hs) as Hback. fold m1 s1 in Hback.
    rewrite Hback, Hs1, Nat.sub_diag. apply transform_nothing. lia.
Qed.

(** X10.  The span a [translate] object converts to, [t.last(n)], is the
    span that [pwflat::translate] returned to its constructor, and
    [size()] is the size of that span. *)
Theorem scoped_view_is_returned_span (dt : num R) (s : span) (m : store R) :
  let g := fst (translate.ctor dt s m) in
  translate.view g = snd (pwflat.translate_span dt s m) /\
  translate.size_ g = size (snd (pwflat.translate_span dt s m)) /\
  translate.size_ g <= size s.
Proof.
  intros g.
  destruct (translate_span_shape dt s m) as (Hk & Hdata & Hsize & _).
  unfold g, translate.ctor, translate.view, translate.size_, last_.
  destruct (pwflat.translate_span dt s m) as [m1 s1]. cbn in *.
  repeat split; try lia.
  destruct s1 as [d1 z1]. cbn in *. f_equal. lia.
Qed.
End TranslateMore.

(** The array and the span of [pwflat_translate_test]. *)
Definition test_times : store Qc := [qz 1; qz 2; qz 4].
Definition test_span : span := {| data := 0; size := 3 |}.

Lemma test_times_increasing : strictly_increasing (size test_span) (elements test_span test_times).
Proof.
  intros i j Hij Hj. cbn in Hj.
  destruct j as [|[|[|j]]]; [lia | | | lia];
    destruct i as [|[|i]]; try lia; reflexivity.
Qed.

Lemma test_span_fits : data test_span + size test_span <= length test_times.
Proof. cbn. lia. Qed.

Lemma translate_composes_witness :
  pwflat.translate_span (qz 2) test_span (fst (pwflat.translate_span (qz 1) test_span test_times))
  = pwflat.translate_span (nadd (qz 1) (qz 2)) test_span test_times.
Proof.
  exact (proj1 (@translate_composes Qc _ _ (qz 1) (qz 2) test_span test_times test_span_fits)).
Defined.

Lemma translate_keeps_order_witness :
  strictly_increasing
    (size (snd (pwflat.translate_span (qz 1) test_span test_times)))
    (elements (snd (pwflat.translate_span (qz 1) test_span test_times))
              (fst (pwflat.translate_span (qz 1) test_span test_times))).
Proof.
  refine (proj1 (proj2 (@translate_keeps_order Qc _ _ (qz 1) test_span test_times
                          _ test_span_fits test_times_increasing))).
  is_finite.
Defined.

Lemma scoped_view_is_returned_span_witness :
  translate.view (fst (translate.ctor (qz 1) test_span test_times))
  = snd (pwflat.translate_span (qz 1) test_span test_times).
Proof.
  exact (proj1 (@scoped_view_is_returned_span Qc _ (qz 1) test_span test_times)).
Defined.

(** ** The kernel's [spot] *)

Section Spot.
Context {R : Type} {Sc : Scalar R} {L : ScalarLaws R}.
Context {D : Division R} {DL : DivisionLaws R}.

Add Ring scalar_ring_spot : (@scalar_ring R Sc L).

Lemma nmul_comm (a b : num R) : nmul a b = nmul b a.
Proof. destruct a, b; cbn; try reflexivity. f_equal. ring. Qed.

Lemma flat_region (a u : num R) : nadd n0 (nmul a (nsub u n0)) = nmul a u.
Proof. destruct a, u; cbn; try reflexivity. f_equal. ring. Qed.

(** Dividing by a number other than 0 and multiplying back. *)
Lemma ndiv_nmul (a : num R) (y : R) :
  eqb y zero = false -> nmul (ndiv a (Fin y)) (Fin y) = a.
Proof.
  intros Hy. destruct a as [|x]; cbn; [reflexivity|]. now rewrite sdiv_mul.
Qed.

(** X11, in exact arithmetic.  [spot] is the average of the forward
    curve: on strictly increasing times and for [u > 0],
    [spot(u) * u = integral(u)], both where [spot] is [value(u)] (up to the
    first pillar) and where it is [integral(u) / u].  Where [spot] divides
    by a [u] that is 0, the dividend [integral(u)] is 0. *)
Theorem spot_is_average (u : num R) (n : nat) (t f : list (num R)) (_f : num R) :
  (strictly_increasing n t -> nlt n0 u = true ->
   nmul (pwflat.spot u n t f _f) u = pwflat.integral u n t f _f) /\
  (neq u n0 = true -> n <> 0 -> nle u (at_ t 0) = false ->
   pwflat.spot u n t f _f = ndiv n0 u).
Proof.
  split.
  - intros Hinc Hpos. destruct (positive_time u Hpos) as (Hfu & Hu & Hz).
    unfold pwflat.spot. destruct (Nat.eqb_spec n 0) as [->|Hn].
    + rewrite integral_no_pillars by assumption. apply nmul_comm.
    + destruct (nle u (at_ t 0)) eqn:Hle.
      * assert (Hfirst : first_pillar_from u n t 0).
        { split; [lia|]. split; [exact Hle | intros j Hj; lia]. }
        rewrite (value_at_first_pillar f _f Hinc Hu Hfirst).
        rewrite (integral_before_pillar f _f Hinc Hpos Hfirst).
        cbn [full_intervals start_of]. symmetry. apply flat_region.
      * destruct Hfu as [y ->]. apply ndiv_nmul. cbn in Hpos.
        now apply eqb_zero_false.
  - intros Hz Hn Hle. unfold pwflat.spot.
    destruct (Nat.eqb_spec n 0) as [|_]; [contradiction|]. rewrite Hle.
    f_equal. apply integral_at_zero; [|exact Hz].
    destruct u as [|y]; [discriminate|]. cbn in Hz |- *.
    apply eqb_eq in Hz. subst y. apply ltb_irrefl.
Qed.
End Spot.

Lemma spot_is_average_witness :
  nmul (pwflat.spot (qz 2) 3 scenario_t scenario_f NaN) (qz 2)
  = pwflat.integral (qz 2) 3 scenario_t scenario_f NaN.
Proof.
  exact (proj1 (@spot_is_average Qc _ _ _ _ (qz 2) 3 scenario_t scenario_f NaN)
           scenario_t_increasing eq_refl).
Defined.

(** [spot] on the scenario's pillars: 2 up to the first pillar, then the
    average, 5/2 at 2 and 3 at 3. *)
Example spot_scenario :
  pwflat.spot (q 1 2) 3 scenario_t scenario_f NaN = qz 2 /\
  pwflat.spot (qz 2) 3 scenario_t scenario_f NaN = q 5 2 /\
  pwflat.spot (qz 3) 3 scenario_t scenario_f NaN = qz 3.
Proof. repeat split; by_evaluation. Qed.

(** [spot] on [double]s, where the model computes what the program does.
    With one pillar at time 1 and the rate [2^1023], [integral(10)]
    overflows and [spot(10)] is an infinity; with the pillar at time -1,
    [spot(0)] is 0/0, not-a-number. *)
Example spot_on_doubles :
  pwflat.spot (b64 10) 1 [b64 1] [b64 0x1p1023] (b64 0x1p1023) = b64 infinity /\
  pwflat.spot (b64 0) 1 [b64 (-1)] [b64 2] (b64 2) = b64 nan.
Proof. split; vm_compute; reflexivity. Qed.

(** ** Rates that are not negative *)

Section Monotone.
Context {R : Type} {Sc : Scalar R} {L : ScalarLaws R} {OL : OrderLaws R}.

Add Ring scalar_ring_monotone : (@scalar_ring R Sc L).

(** [a <= b] on scalars is [ltb b a = false]. *)
Lemma sle_of_diff (a b : R) : ltb (sub b a) zero = false -> ltb b a = false.
Proof.
  intros H. destruct (ltb b a) eqn:E; [|reflexivity].
  apply (ltb_sub_compat _ _ a) in E. rewrite sub_diag in E. congruence.
Qed.

Lemma sle_trans (a b c : R) :
  ltb b a = false -> ltb c b = false -> ltb c a = false.
Proof.
  intros Hab Hbc. destruct (ltb c a) eqn:E; [|reflexivity].
  destruct (ltb b c) eqn:E2.
  - rewrite (ltb_trans _ _ _ E2 E) in Hab. discriminate.
  - rewrite (ltb_total _ _ E2 Hbc) in Hab. congruence.
Qed.

Lemma sle_add_l (a b c : R) : ltb b a = false -> ltb (add c b) (add c a) = false.
Proof.
  intros H. apply sle_of_diff.
  replace (sub (add c b) (add c a)) with (sub b a) by ring. now apply sub_nonneg.
Qed.

Lemma sle_mul_l (a b c : R) :
  ltb c zero = false -> ltb b a = false -> ltb (mul c b) (mul c a) = false.
Proof.
  intros Hc H. apply sle_of_diff.
  replace (sub (mul c b) (mul c a)) with (mul c (sub b a)) by ring.
  apply mul_nonneg; [exact Hc | now apply sub_nonneg].
Qed.

Lemma sle_sub_r (a b c : R) : ltb b a = false -> ltb (sub b c) (sub a c) = false.
Proof.
  intros H. apply sle_of_diff.
  replace (sub (sub b c) (sub a c)) with (sub b a) by ring. now apply sub_nonneg.
Qed.

(** The same on [num]: [nle a b = true] says that both are numbers and
    [a <= b]. *)
Lemma nle_refl (a : num R) : finite a -> nle a a = true.
Proof. intros [x ->]. cbn. now rewrite ltb_irrefl. Qed.

Lemma nle_trans (a b c : num R) : nle a b = true -> nle b c = true -> nle a c = true.
Proof.
  destruct a, b, c; cbn; try discriminate.
  intros H1%negb_true_iff H2%negb_true_iff. apply negb_true_iff.
  eapply sle_trans; eassumption.
Qed.

Lemma nle_nadd (a b c : num R) :
  finite c -> nle a b = true -> nle (nadd c a) (nadd c b) = true.
Proof.
  intros [z ->]. destruct a, b; cbn; try discriminate.
  intros H%negb_true_iff. apply negb_true_iff. now apply sle_add_l.
Qed.

Lemma nle_nmul (a b c : num R) :
  nle n0 c = true -> nle a b = true -> nle (nmul c a) (nmul c b) = true.
Proof.
  destruct c, a, b; cbn; try discriminate.
  intros Hc%negb_true_iff H%negb_true_iff. apply negb_true_iff. now apply sle_mul_l.
Qed.

Lemma nle_nsub (a b c : num R) :
  finite c -> nle a b = true -> nle (nsub a c) (nsub b c) = true.
Proof.
  intros [z ->]. destruct a, b; cbn; try discriminate.
  intros H%negb_true_iff. apply negb_true_iff. now apply sle_sub_r.
Qed.

Lemma nonneg_nsub (a b : num R) : nle a b = true -> nle n0 (nsub b a) = true.
Proof.
  destruct a, b; cbn; try discriminate.
  intros H%negb_true_iff. apply negb_true_iff. now apply sub_nonneg.
Qed.

Lemma nonneg_nmul (a b : num R) :
  nle n0 a = true -> nle n0 b = true -> nle n0 (nmul a b) = true.
Proof.
  destruct a, b; cbn; try discriminate.
  intros Ha%negb_true_iff Hb%negb_true_iff. apply negb_true_iff. now apply mul_nonneg.
Qed.

Lemma nle_nadd_nonneg (a b : num R) :
  finite a -> nle n0 b = true -> nle a (nadd a b) = true.
Proof.
  intros [x ->]. destruct b as [|y]; cbn; try discriminate.
  intros H%negb_true_iff. apply negb_true_iff.
  replace x with (add x zero) at 2 by ring. now apply sle_add_l.
Qed.
End Monotone.

Section NonNegativeRates.
Context {R : Type} {Sc : Scalar R} {L : ScalarLaws R} {OL : OrderLaws R}.
Variables (n : nat) (t f : list (num R)) (_f : num R).
Hypothesis Hinc : strictly_increasing n t.
Hypothesis Hfirst : n <> 0 -> nle n0 (at_ t 0) = true.
Hypothesis Hrates : forall i, i < n -> nle n0 (at_ f i) = true.
Hypothesis Hextra : nle n0 _f = true.

Lemma times_nonneg (i : nat) : i < n -> nle n0 (at_ t i) = true.
Proof.
  intros Hi. destruct i as [|i]; [apply Hfirst; lia|].
  eapply nle_trans; [apply Hfirst; lia|].
  apply nlt_nle, Hinc; lia.
Qed.

Lemma start_nonneg (k : nat) : k <= n -> nle n0 (start_of t k) = true.
Proof.
  intros Hk. destruct k as [|j]; cbn.
  - now rewrite ltb_irrefl.
  - apply times_nonneg. lia.
Qed.

Lemma start_le_pillar (j : nat) : j < n -> nle (start_of t j) (at_ t j) = true.
Proof.
  intros Hj. destruct j as [|i]; cbn [start_of].
  - apply Hfirst. lia.
  - apply nlt_nle, Hinc; lia.
Qed.

Lemma interval_nonneg (j : nat) :
  j < n -> nle n0 (nmul (at_ f j) (nsub (at_ t j) (start_of t j))) = true.
Proof.
  intros Hj. apply nonneg_nmul; [now apply Hrates|].
  now apply nonneg_nsub, start_le_pillar.
Qed.

Lemma full_intervals_nonneg (k : nat) : k <= n -> nle n0 (full_intervals k t f) = true.
Proof.
  induction k as [|j IH]; intros Hk; cbn [full_intervals].
  - cbn. now rewrite ltb_irrefl.
  - specialize (IH ltac:(lia)). eapply nle_trans; [exact IH|].
    apply nle_nadd_nonneg; [apply (nle_finite _ _ IH) | apply interval_nonneg; lia].
Qed.

Lemma full_intervals_mono (j k : nat) :
  j <= k -> k <= n -> nle (full_intervals j t f) (full_intervals k t f) = true.
Proof.
  intros Hjk. induction k as [|k IH]; intros Hk.
  - assert (j = 0) as -> by lia. apply nle_refl. eexists; reflexivity.
  - destruct (Nat.eq_dec j (S k)) as [->|Hne].
    + apply nle_refl, (nle_finite _ _ (full_intervals_nonneg Hk)).
    + eapply nle_trans; [apply IH; lia|]. cbn [full_intervals].
      apply nle_nadd_nonneg; [|apply interval_nonneg; lia].
      apply (nle_finite _ _ (full_intervals_nonneg (k := k) ltac:(lia))).
Qed.

(** The rate of the interval that starts at pillar [k]. *)
Definition rate_from (k : nat) : num R := if k =? n then _f else at_ f k.

Lemma rate_from_nonneg (k : nat) : k <= n -> nle n0 (rate_from k) = true.
Proof.
  intros Hk. unfold rate_from. destruct (Nat.eqb_spec k n); [exact Hextra|].
  apply Hrates. lia.
Qed.

(** [u] lies in the interval that starts at pillar [k]. *)
Definition lies_from (u : num R) (k : nat) : Prop :=
  k <= n /\ (forall j, j < k -> nlt (at_ t j) u = true) /\
  (k < n -> nle u (at_ t k) = true).

Lemma lies_somewhere (u : num R) : nle n0 u = true -> exists k, lies_from u k.
Proof.
  intros Hu. destruct (nle_finite _ _ Hu) as [_ Hfu].
  assert (Hft : forall i, i < n -> finite (at_ t i))
    by (intros i Hi; apply (nle_finite _ _ (times_nonneg Hi))).
  destruct (value_cases Hinc Hfu Hft) as [[k Hk] | Hall].
  - exists k. pose proof (before_first_pillar Hinc Hk) as Hb.
    destruct Hk as (Hkn & Hge & _). split; [lia|]. split; [exact Hb|].
    intros _. exact Hge.
  - exists n. split; [lia|]. split; [exact Hall | lia].
Qed.

Lemma integral_where_it_lies (u : num R) (k : nat) :
  nlt n0 u = true -> n <> 0 -> lies_from u k ->
  pwflat.integral u n t f _f
  = nadd (full_intervals k t f) (nmul (rate_from k) (nsub u (start_of t k))).
Proof.
  intros Hpos Hn (Hk & Hbelow & Hat). unfold rate_from.
  destruct (Nat.eqb_spec k n) as [->|Hne].
  - apply integral_past_pillars; assumption.
  - apply integral_before_pillar; try assumption.
    split; [lia|]. split; [apply Hat; lia|].
    intros j Hj. unfold nge. destruct (nle u (at_ t j)) eqn:E; [|reflexivity].
    apply nle_true_nlt in E. rewrite (Hbelow j Hj) in E. discriminate.
Qed.

Lemma start_le_time (u : num R) (k : nat) :
  nle n0 u = true -> lies_from u k -> nle (start_of t k) u = true.
Proof.
  intros Hu (Hk & Hbelow & _). destruct k as [|j]; [exact Hu|].
  cbn [start_of]. apply nlt_nle, Hbelow. lia.
Qed.

Lemma zero_or_positive (u : num R) :
  nle n0 u = true ->
  (nlt u n0 = false /\ neq u n0 = true) \/ nlt n0 u = true.
Proof.
  destruct u as [|y]; cbn; [discriminate|]. intros H%negb_true_iff.
  destruct (ltb zero y) eqn:E; [now right | left].
  split; [exact H|]. apply eqb_eq. now apply ltb_total.
Qed.

Lemma integral_nonneg (u : num R) :
  nle n0 u = true -> nle n0 (pwflat.integral u n t f _f) = true.
Proof.
  intros Hu. destruct (zero_or_positive u Hu) as [[H1 H2] | Hpos].
  - rewrite integral_at_zero by assumption. cbn. now rewrite ltb_irrefl.
  - destruct (positive_time u Hpos) as (_ & Hlt & Hz).
    destruct (Nat.eq_dec n 0) as [Hn|Hn].
    + subst n. rewrite integral_no_pillars by assumption. now apply nonneg_nmul.
    + destruct (lies_somewhere u Hu) as [k Hk].
      rewrite (integral_where_it_lies Hpos Hn Hk).
      pose proof (full_intervals_nonneg (proj1 Hk)) as Hfull.
      eapply nle_trans; [exact Hfull|].
      apply nle_nadd_nonneg; [apply (nle_finite _ _ Hfull)|].
      apply nonneg_nmul; [apply rate_from_nonneg, (proj1 Hk)|].
      now apply nonneg_nsub, start_le_time.
Qed.

Lemma integral_mono (u v : num R) :
  nle n0 u = true -> nle u v = true ->
  nle (pwflat.integral u n t f _f) (pwflat.integral v n t f _f) = true.
Proof.
  intros Hu Huv. pose proof (nle_trans _ _ _ Hu Huv) as Hv.
  destruct (zero_or_positive u Hu) as [[H1 H2] | Hpos].
  - rewrite integral_at_zero by assumption. now apply integral_nonneg.
  - assert (Hposv : nlt n0 v = true).
    { destruct u as [|a], v as [|b]; cbn in Hpos, Huv |- *; try discriminate.
      apply negb_true_iff in Huv. destruct (ltb zero b) eqn:E; [reflexivity|].
      rewrite (sle_trans _ _ _ Huv E) in Hpos. discriminate. }
    destruct (positive_time u Hpos) as (Hfu & Hlt & Hz).
    destruct (positive_time v Hposv) as (Hfv & Hltv & Hzv).
    destruct (Nat.eq_dec n 0) as [Hn|Hn].
    + subst n. rewrite !integral_no_pillars by assumption.
      rewrite (nmul_comm u), (nmul_comm v). now apply nle_nmul.
    + destruct (lies_somewhere u Hu) as [ku Hku], (lies_somewhere v Hv) as [kv Hkv].
      rewrite (integral_where_it_lies Hpos Hn Hku), (integral_where_it_lies Hposv Hn Hkv).
      pose proof (full_intervals_nonneg (proj1 Hku)) as Hfu'.
      pose proof (full_intervals_nonneg (proj1 Hkv)) as Hfv'.
      assert (Hle : ku <= kv).
      { destruct (Nat.le_gt_cases ku kv) as [H|H]; [exact H | exfalso].
        destruct Hku as (Hkun & Hbelow & _), Hkv as (Hkvn & _ & Hat).
        pose proof (Hbelow kv H) as Hb.
        pose proof (nle_trans _ _ _ Huv (Hat ltac:(lia))) as Hc.
        apply nle_true_nlt in Hc. congruence. }
      destruct (Nat.eq_dec ku kv) as [->|Hne].
      * apply nle_nadd; [apply (nle_finite _ _ Hfv')|].
        apply nle_nmul; [apply rate_from_nonneg, (proj1 Hkv)|].
        apply nle_nsub; [|exact Huv].
        apply (nle_finite _ _ (start_nonneg (proj1 Hkv))).
      * assert (Hkun : ku < n) by (destruct Hkv; lia).
        eapply nle_trans; [|eapply nle_trans].
        -- (* up to the pillar that ends the interval of u *)
           instantiate (1 := full_intervals (S ku) t f). cbn [full_intervals].
           apply nle_nadd; [apply (nle_finite _ _ Hfu')|].
           unfold rate_from. destruct (Nat.eqb_spec ku n); [lia|].
           apply nle_nmul; [now apply Hrates|].
           apply nle_nsub; [apply (nle_finite _ _ (start_nonneg (proj1 Hku)))|].
           apply (proj2 (proj2 Hku)). exact Hkun.
        -- apply (@full_intervals_mono (S ku) kv); [lia | exact (proj1 Hkv)].
        -- apply nle_nadd_nonneg; [apply (nle_finite _ _ Hfv')|].
           apply nonneg_nmul; [apply rate_from_nonneg, (proj1 Hkv)|].
           now apply nonneg_nsub, start_le_time.
Qed.
End NonNegativeRates.

(** X12.  With rates and an extrapolation that are not negative, on
    strictly increasing times that start at or after 0, [integral] is not
    negative and does not decrease: for [0 <= u <= v],
    [0 <= integral(u) <= integral(v)], and both integrals are numbers. *)
Theorem integral_nondecreasing {R : Type} {Sc : Scalar R} {L : ScalarLaws R}
    {OL : OrderLaws R} (n : nat) (t f : list (num R)) (_f u v : num R) :
  strictly_increasing n t ->
  (n <> 0 -> nle n0 (at_ t 0) = true) ->
  (forall i, i < n -> nle n0 (at_ f i) = true) ->
  nle n0 _f = true ->
  nle n0 u = true -> nle u v = true ->
  nle n0 (pwflat.integral u n t f _f) = true /\
  nle (pwflat.integral u n t f _f) (pwflat.integral v n t f _f) = true.
Proof.
  intros Hinc Hfirst Hrates Hextra Hu Huv. split.
  - now apply integral_nonneg.
  - now apply integral_mono.
Qed.

Lemma scenario_rates_nonneg (i : nat) : i < 3 -> nle n0 (at_ scenario_f i) = true.
Proof. intros Hi. destruct i as [|[|[|i]]]; try reflexivity. lia. Qed.

Lemma integral_nondecreasing_witness :
  nle n0 (pwflat.integral (q 1 2) 3 scenario_t scenario_f (qz 5)) = true /\
  nle (pwflat.integral (q 1 2) 3 scenario_t scenario_f (qz 5))
      (pwflat.integral (q 7 2) 3 scenario_t scenario_f (qz 5)) = true.
Proof.
  exact (@integral_nondecreasing Qc _ _ _ 3 scenario_t scenario_f (qz 5) (q 1 2) (q 7 2)
           scenario_t_increasing (fun _ => eq_refl) scenario_rates_nonneg
           eq_refl eq_refl eq_refl).
Defined.

(** ** The curve a constructor call builds *)

Section Built.
Context {R : Type} {Sc : Scalar R}.

Lemma last_at (l : list (num R)) : l <> [] -> last l NaN = at_ l (length l - 1).
Proof.
  induction l as [|x l IH]; [congruence|]. intros _.
  destruct l as [|y l]; [reflexivity|].
  change (last (x :: y :: l) NaN) with (last (y :: l) NaN).
  rewrite IH by discriminate. cbn [length]. unfold at_.
  replace (S (S (length l)) - 1) with (S (S (length l) - 1)) by lia. reflexivity.
Qed.

Lemma back_of_firstn (n : nat) (l : list (num R)) :
  n <> 0 -> n <= length l ->
  firstn n l <> [] /\ last (firstn n l) NaN = at_ l (n - 1).
Proof.
  intros Hn Hl.
  assert (Hlen : length (firstn n l) = n) by now apply firstn_length_le.
  assert (Hne : firstn n l <> []).
  { intros E. rewrite E in Hlen. cbn in Hlen. lia. }
  split; [exact Hne|].
  rewrite (last_at Hne), Hlen. apply at_firstn. lia.
Qed.

(** X13.  The curve that [pwflat(n, t_, f_, _f)] builds from [n >= 1]
    pillars evaluates as the kernel does on the caller's arrays, also when
    these are longer than [n]: [back()] is [(t_[n-1], f_[n-1])],
    [extrapolate()] is [_f], and [integral(u, t0)] is the kernel's
    [integral(u) - integral(t0)] over [t_], [f_] and [n]; the kernel's
    [value] over the vectors held is its [value] over [t_], [f_] and [n]. *)
Theorem pwflat_ctor_evaluates (n : nat) (t_ f_ : list (num R)) (_f : num R) :
  n <> 0 -> n <= length t_ -> n <= length f_ ->
  exists p,
    curve.pwflat_ctor n t_ f_ _f = Returned p /\
    curve.pwflat_back p = Returned (at_ t_ (n - 1), at_ f_ (n - 1)) /\
    curve.extrapolate (curve.pwflat_base p) = _f /\
    (forall u t0,
       curve.integral (curve.pwflat_base p) u t0
       = nsub (pwflat.integral u n t_ f_ _f) (pwflat.integral t0 n t_ f_ _f)) /\
    (forall u,
       pwflat.value u (length (curve.t p)) (curve.t p) (curve.f p) (curve._f p)
       = pwflat.value u n t_ f_ _f).
Proof.
  intros Hn Ht Hf. unfold curve.pwflat_ctor.
  destruct (Nat.leb_spec n (length t_)) as [_|]; [|lia].
  destruct (Nat.leb_spec n (length f_)) as [_|]; [|lia].
  cbn [andb]. eexists. split; [reflexivity|].
  destruct (@back_of_firstn n t_ Hn Ht) as [Hnt Hlt], (@back_of_firstn n f_ Hn Hf) as [Hnf Hlf].
  assert (Hlen : length (firstn n t_) = n) by now apply firstn_length_le.
  split; [|split; [reflexivity|split]].
  - unfold curve.pwflat_back. cbn [curve.t curve.f].
    destruct (firstn n t_) as [|x l] eqn:Et; [congruence|].
    destruct (firstn n f_) as [|y l'] eqn:Ef; [congruence|].
    now rewrite Hlt, Hlf.
  - intros u t0. cbn. unfold curve.pwflat_integral. cbn [curve.t curve.f curve._f].
    rewrite Hlen. f_equal; apply integral_reads_first_n; intros i Hi; now apply at_firstn.
  - intros u. cbn [curve.t curve.f curve._f]. rewrite Hlen.
    apply value_reads_first_n; intros i Hi; now apply at_firstn.
Qed.
End Built.

Lemma pwflat_ctor_evaluates_witness :
  exists p,
    curve.pwflat_ctor 2 scenario_t scenario_f (qz 5) = Returned p /\
    curve.pwflat_back p = Returned (qz 2, qz 3).
Proof.
  destruct (@pwflat_ctor_evaluates Qc _ 2 scenario_t scenario_f (qz 5)
              (fun H : 2 = 0 => O_S 1 (eq_sym H))
              (le_S _ _ (le_n 2)) (le_S _ _ (le_n 2))) as (p & Hp & Hb & _).
  exists p. split; [exact Hp | exact Hb].
Defined.

(** ** What [monotonic] accepts *)

Section MonotonicMore.
Context {R : Type} {Sc : Scalar R} {L : ScalarLaws R}.

(** X14.  [monotonic(n, t)] is true exactly when no time among the first
    [n] is [>=] its successor.  It is true of strictly increasing times,
    and among times that are all numbers it is true of those only. *)
Theorem monotonic_checks_increase (n : nat) (t : list (num R)) :
  n <= length t ->
  (pwflat.monotonic n t = true <->
   forall i, S i < n -> nge (at_ t i) (at_ t (S i)) = false) /\
  (strictly_increasing n t -> pwflat.monotonic n t = true) /\
  ((forall i, i < n -> finite (at_ t i)) ->
   (pwflat.monotonic n t = true <-> strictly_increasing n t)).
Proof.
  intros Hn.
  assert (Hlen : length (firstn n t) = n) by now apply firstn_length_le.
  destruct (monotonic_strictly_increasing t Hn) as [H1 H2].
  split; [|split; [exact H1 | intros Hfin; split; [now apply H2 | exact H1]]].
  unfold pwflat.monotonic. rewrite Nat.eqb_eq, adjacent_find_end, Hlen.
  split; intros H i Hi.
  - specialize (H i Hi). now rewrite !at_firstn in H by lia.
  - rewrite !at_firstn by lia. now apply H.
Qed.

(** [monotonic] of a whole list. *)
Lemma monotonic_all (l : list (num R)) :
  pwflat.monotonic (length l) l = (adjacent_find nge l =? length l).
Proof. unfold pwflat.monotonic. now rewrite firstn_all. Qed.

Lemma adjacent_find_step (x y : num R) (l : list (num R)) :
  (adjacent_find nge (x :: y :: l) =? length (x :: y :: l))
  = negb (nge x y) && (adjacent_find nge (y :: l) =? length (y :: l)).
Proof.
  change (adjacent_find nge (x :: y :: l))
    with (if nge x y then 0 else S (adjacent_find nge (y :: l))).
  change (length (x :: y :: l)) with (S (length (y :: l))).
  destruct (nge x y); reflexivity.
Qed.

Lemma nge_nan_l (y : num R) : nge NaN y = false.
Proof. now destruct y. Qed.

Lemma nge_nan_r (x : num R) : nge x NaN = false.
Proof. now destruct x. Qed.

Lemma adjacent_find_nan (l1 l2 : list (num R)) :
  (adjacent_find nge (l1 ++ NaN :: l2) =? length (l1 ++ NaN :: l2))
  = (adjacent_find nge l1 =? length l1) && (adjacent_find nge l2 =? length l2).
Proof.
  assert (Hnil : (adjacent_find nge (NaN :: l2) =? length (NaN :: l2))
                 = (adjacent_find nge l2 =? length l2)).
  { destruct l2 as [|y l2]; [reflexivity|].
    now rewrite adjacent_find_step, nge_nan_l. }
  induction l1 as [|x l1 IH]; [exact Hnil|].
  destruct l1 as [|y l1].
  - change ([x] ++ NaN :: l2) with (x :: NaN :: l2).
    now rewrite adjacent_find_step, nge_nan_r, Hnil.
  - change ((x :: y :: l1) ++ NaN :: l2) with (x :: y :: (l1 ++ NaN :: l2)).
    rewrite !adjacent_find_step.
    change (y :: l1 ++ NaN :: l2) with ((y :: l1) ++ NaN :: l2).
    rewrite IH. now rewrite andb_assoc.
Qed.

(** X15.  [monotonic] looks through a not-a-number: a time that is
    not-a-number is [>=] nothing and nothing is [>=] it, so times with one
    among them pass exactly when the times before it and the times after
    it pass, whatever their order across it. *)
Theorem monotonic_looks_through_nan (l1 l2 : list (num R)) :
  pwflat.monotonic (length (l1 ++ NaN :: l2)) (l1 ++ NaN :: l2)
  = pwflat.monotonic (length l1) l1 && pwflat.monotonic (length l2) l2.
Proof. rewrite !monotonic_all. apply adjacent_find_nan. Qed.
End MonotonicMore.

Lemma monotonic_checks_increase_witness :
  pwflat.monotonic 3 scenario_t = true <-> strictly_increasing 3 scenario_t.
Proof.
  refine (proj2 (proj2 (@monotonic_checks_increase Qc _ _ 3 scenario_t (le_n 3))) _).
  intros i Hi. destruct i as [|[|[|i]]]; try is_finite. lia.
Defined.

(** ** Discount factors of a piecewise-flat curve *)

Section FromZero.
Context {R : Type} {Sc : Scalar R} {L : ScalarLaws R} {E : Exponential R}.

(** X16.  From the default lower bound 0 the piecewise-flat curve gives
    what the kernel gives: [integral(u, 0)] is the kernel's [integral(u)]
    and [discount(u, 0)] is the kernel's [discount(u)] over the vectors the
    curve holds, for every [u], not-a-number results included. *)
Theorem pwflat_from_zero_is_kernel (p : curve.pwflat) (u : num R) :
  let n := length (curve.t p) in
  curve.integral (curve.pwflat_base p) u n0
  = pwflat.integral u n (curve.t p) (curve.f p) (curve._f p) /\
  curve.discount (curve.pwflat_base p) u n0
  = pwflat.discount u n (curve.t p) (curve.f p) (curve._f p).
Proof.
  intros n.
  assert (H : curve.integral (curve.pwflat_base p) u n0
              = pwflat.integral u n (curve.t p) (curve.f p) (curve._f p)).
  { cbn. unfold curve.pwflat_integral. fold n.
    rewrite (@integral_at_zero R Sc n0 n); cbn;
      [apply nsub_zero | apply ltb_irrefl | apply eqb_refl]. }
  split; [exact H|]. unfold curve.discount, pwflat.discount. now rewrite H.
Qed.
End FromZero.

Lemma pwflat_from_zero_is_kernel_witness :
  let p := {| curve.t := [Fin 1%R]; curve.f := [Fin 2%R]; curve._f := NaN |} in
  curve.discount (curve.pwflat_base p) (Fin 2%R) n0
  = pwflat.discount (Fin 2%R) 1 [Fin 1%R] [Fin 2%R] NaN.
Proof.
  intros p. exact (proj2 (@pwflat_from_zero_is_kernel R _ R_ScalarLaws _ p (Fin 2%R))).
Defined.

Lemma exp_le (x y : R) : (x <= y)%R -> (exp x <= exp y)%R.
Proof.
  intros [Hlt | ->]; [|lra]. left. now apply exp_increasing.
Qed.

Lemma R_nle (a b : R) : nle (Fin a) (Fin b) = true <-> (a <= b)%R.
Proof.
  cbn. destruct (Rlt_dec b a); cbn; split; intros H; try lra; try discriminate; reflexivity.
Qed.

(** X17.  Over the reals, with rates and an extrapolation that are not
    negative on strictly increasing times that start at or after 0, the
    kernel's discount factors lie in (0, 1] and do not increase: for
    [0 <= u <= v], [0 < discount(v) <= discount(u) <= 1]. *)
Theorem discount_in_unit_interval (n : nat) (t f : list (num R)) (_f u v : num R) :
  strictly_increasing n t ->
  (n <> 0 -> nle n0 (at_ t 0) = true) ->
  (forall i, i < n -> nle n0 (at_ f i) = true) ->
  nle n0 _f = true ->
  nle n0 u = true -> nle u v = true ->
  nlt n0 (pwflat.discount v n t f _f) = true /\
  nle (pwflat.discount v n t f _f) (pwflat.discount u n t f _f) = true /\
  nle (pwflat.discount u n t f _f) n1 = true.
Proof.
  intros Hinc Hfirst Hrates Hextra Hu Huv.
  assert (H0 : nle n0 (pwflat.integral u n t f _f) = true)
    by now apply integral_nonneg.
  assert (Hle : nle (pwflat.integral u n t f _f) (pwflat.integral v n t f _f) = true)
    by now apply integral_mono.
  unfold pwflat.discount.
  destruct (pwflat.integral u n t f _f) as [|a]; [discriminate|].
  destruct (pwflat.integral v n t f _f) as [|b]; [discriminate|].
  apply R_nle in H0, Hle. cbn in H0.
  cbn [nexp nneg lift1 expo opp R_Exponential R_Scalar].
  split; [|split].
  - cbn. destruct (Rlt_dec 0 (exp (- b)%R)) as [_|H]; [reflexivity|].
    pose proof (exp_pos (- b)%R). lra.
  - apply R_nle. apply exp_le. lra.
  - apply R_nle. pose proof (@exp_le (- a)%R 0%R ltac:(lra)) as H.
    rewrite exp_0 in H. exact H.
Qed.

Lemma real_pillars_increasing : strictly_increasing 2 [Fin 1%R; Fin 2%R].
Proof.
  intros i j Hij Hj. destruct j as [|[|j]]; [lia | | lia].
  assert (i = 0) as -> by lia. apply R_ltb_lt. lra.
Qed.

Lemma discount_in_unit_interval_witness :
  nle (pwflat.discount (Fin 1%R) 2 [Fin 1%R; Fin 2%R] [Fin 0%R; Fin 1%R] (Fin 0%R)) n1 = true.
Proof.
  refine (proj2 (proj2 (@discount_in_unit_interval 2 [Fin 1%R; Fin 2%R] [Fin 0%R; Fin 1%R]
                          (Fin 0%R) (Fin 1%R) (Fin 2%R) real_pillars_increasing _ _ _ _ _))).
  - intros _. apply R_nle. cbn. lra.
  - intros i Hi. destruct i as [|[|i]]; [| |lia]; apply R_nle; cbn; lra.
  - apply R_nle. cbn. lra.
  - apply R_nle. cbn. lra.
  - apply R_nle. lra.
Defined.
